(** * N_byte_int: an integer stored in exactly [Num_bytes] bytes

    Shallow embedding of [Functions/Gjenstand_1/n_byte_int.h].

    - Integers of a C++ integral type are mathematical integers ([Z]) together
      with the type they live in ([int_type]: size in bytes and signedness).
      Conversions between integral types are modular (the header needs C++20:
      it includes <bit> and uses std::endian).  Arithmetic carried out in an
      unsigned type wraps; arithmetic carried out in a signed type whose
      mathematical result is not representable is undefined behaviour.
    - Undefined behaviour is the failure of the [option] monad: a function
      returns [None] exactly when its C++ body runs into signed overflow or
      dereferences an iterator that points outside the object it walks.
    - A byte has eight bits ([CHAR_BIT], which the header uses without
      defining it; the test against 0x80 in [get_value] takes bit 7 for the
      top bit of a byte).
    - Bytes ([std::byte]) are integers in [0, 256); an object is the list of
      its bytes in address order.  [std::copy_n] works on a memory holding the
      two objects the class ever copies between: the member [data_] and the
      local [uvalue]. *)

From Stdlib Require Import ZArith List Lia Bool.
Import ListNotations.
Local Open Scope Z_scope.

(** ** Undefined behaviour as failure *)

Definition bind {A B : Type} (c : option A) (k : A -> option B) : option B :=
  match c with
  | Some a => k a
  | None => None
  end.

Notation "x <- c ;; k" := (bind c (fun x => k))
  (at level 61, c at next level, right associativity).

(** ** Platform and types *)

(** [std::endian]: the two byte orders the static_asserts allow. *)
Inductive endian : Set := little | big.

(** What the header takes from the platform: [std::endian::native] and
    [sizeof(int)] (which decides the integral promotions). *)
Record host : Set := { native : endian; sizeof_int : nat }.

(** An integral type: [sizeof] in bytes and [std::is_signed_v]. *)
Record int_type : Set := { size_of : nat; is_signed : bool }.

Definition CHAR_BIT : Z := 8.

Definition bits (t : int_type) : Z := Z.of_nat (size_of t) * CHAR_BIT.

Definition make_unsigned_t (t : int_type) : int_type :=
  {| size_of := size_of t; is_signed := false |}.

Definition make_signed_t (t : int_type) : int_type :=
  {| size_of := size_of t; is_signed := true |}.

Definition int_t (h : host) : int_type :=
  {| size_of := sizeof_int h; is_signed := true |}.

(** Integral promotion: a type narrower than [int] is computed with in
    [int]; every other type is computed with in itself.  The literals [-1]
    and [1] of the header have type [int], so the usual arithmetic
    conversions of [x * -1] and [x + 1] end at [promote] of the type of x. *)
Definition promote (h : host) (t : int_type) : int_type :=
  if (size_of t <? sizeof_int h)%nat then int_t h else t.

(** The values of a type. *)
Definition int_min (t : int_type) : Z :=
  if is_signed t then - 2 ^ (bits t - 1) else 0.

Definition int_max (t : int_type) : Z :=
  if is_signed t then 2 ^ (bits t - 1) - 1 else 2 ^ bits t - 1.

Definition representable (t : int_type) (v : Z) : bool :=
  (int_min t <=? v) && (v <=? int_max t).

(** [static_cast<T>(v)]: the value of T congruent to v modulo 2^bits. *)
Definition static_cast (t : int_type) (v : Z) : Z :=
  if is_signed t
  then (v + 2 ^ (bits t - 1)) mod 2 ^ bits t - 2 ^ (bits t - 1)
  else v mod 2 ^ bits t.

(** The outcome of an arithmetic operator evaluated in type t whose
    mathematical result is v. *)
Definition arith (t : int_type) (v : Z) : option Z :=
  if is_signed t
  then if representable t v then Some v else None
  else Some (v mod 2 ^ bits t).

(** ** namespace n_byte_int_detail: the two's-complement codec *)

(** [if (value >= 0) return static_cast<U>(value);
     else return ~static_cast<U>(value * -1) + 1;]
    with U = std::make_unsigned_t<Sint>.  The product is evaluated in the
    promoted type of Sint, the complement and the sum in the promoted type
    of U, and the result is converted to U on return. *)
Definition to_twos_complement (h : host) (Sint : int_type) (value : Z)
  : option Z :=
  let U := make_unsigned_t Sint in
  if 0 <=? value then
    Some (static_cast U value)
  else
    negated <- arith (promote h Sint) (value * -1) ;;
    complement <- arith (promote h U) (Z.lnot (static_cast U negated)) ;;
    result <- arith (promote h U) (complement + 1) ;;
    Some (static_cast U result).

(** [if ((value & (Uint{1} << (sizeof(Uint) * CHAR_BIT - 1))) == 0)
       return static_cast<S>(value);
     else return static_cast<S>(~value + 1) * -1;]
    with S = std::make_signed_t<Uint>.  The shift, the complement and the sum
    are evaluated in the promoted type of Uint, the product in the promoted
    type of S, and the result is converted to S on return. *)
Definition from_twos_complement (h : host) (Uint : int_type) (value : Z)
  : option Z :=
  let Sint := make_signed_t Uint in
  mask <- arith (promote h Uint)
            (Z.shiftl (static_cast Uint 1) (bits Uint - 1)) ;;
  if Z.land value mask =? 0 then
    Some (static_cast Sint value)
  else
    complement <- arith (promote h Uint) (Z.lnot value) ;;
    magnitude <- arith (promote h Uint) (complement + 1) ;;
    negated <- arith (promote h Sint) (static_cast Sint magnitude * -1) ;;
    Some (static_cast Sint negated).

(** ** Memory, iterators and std::copy_n *)

Abbreviation byte := Z (only parsing).

Definition is_byte (b : byte) : Prop := 0 <= b < 256.

Inductive object : Set := obj_data | obj_uvalue.

Record memory : Set := { mem_data : list byte; mem_uvalue : list byte }.

Definition contents (m : memory) (o : object) : list byte :=
  match o with
  | obj_data => mem_data m
  | obj_uvalue => mem_uvalue m
  end.

Definition with_contents (m : memory) (o : object) (l : list byte) : memory :=
  match o with
  | obj_data => {| mem_data := l; mem_uvalue := mem_uvalue m |}
  | obj_uvalue => {| mem_data := mem_data m; mem_uvalue := l |}
  end.

Fixpoint set_nth (l : list byte) (n : nat) (b : byte) : list byte :=
  match l, n with
  | [], _ => []
  | _ :: r, O => b :: r
  | x :: r, S k => x :: set_nth r k b
  end.

(** Reading and writing the byte at offset i of an object; an offset outside
    the object is undefined behaviour. *)
Definition load (m : memory) (o : object) (i : Z) : option byte :=
  if 0 <=? i then nth_error (contents m o) (Z.to_nat i) else None.

Definition store (m : memory) (o : object) (i : Z) (b : byte)
  : option memory :=
  if (0 <=? i) && (i <? Z.of_nat (length (contents m o)))
  then Some (with_contents m o (set_nth (contents m o) (Z.to_nat i) b))
  else None.

(** A byte pointer into an object, or a [std::reverse_iterator] around one
    (which designates the byte before its base). *)
Inductive iterator : Set :=
  | pointer (o : object) (offset : Z)
  | reverse_iterator (o : object) (base : Z).

Definition iter_object (it : iterator) : object :=
  match it with
  | pointer o _ => o
  | reverse_iterator o _ => o
  end.

Definition iter_offset (it : iterator) : Z :=
  match it with
  | pointer _ i => i
  | reverse_iterator _ b => b - 1
  end.

Definition next (it : iterator) (n : Z) : iterator :=
  match it with
  | pointer o i => pointer o (i + n)
  | reverse_iterator o b => reverse_iterator o (b - n)
  end.

Definition prev (it : iterator) : iterator := next it (-1).

Definition deref (m : memory) (it : iterator) : option byte :=
  load m (iter_object it) (iter_offset it).

Definition assign_through (m : memory) (it : iterator) (b : byte)
  : option memory :=
  store m (iter_object it) (iter_offset it) b.

(** [std::copy_n(first, count, result)]: count times
    [*result++ = *first++]. *)
Fixpoint copy_n (m : memory) (first : iterator) (count : nat)
    (result : iterator) : option memory :=
  match count with
  | O => Some m
  | S k =>
      b <- deref m first ;;
      m' <- assign_through m result b ;;
      copy_n m' (next first 1) k (next result 1)
  end.

(** The object representation of an unsigned scalar: its bytes from the
    least significant one, laid out in the host's order. *)
Fixpoint le_bytes (n : nat) (u : Z) : list byte :=
  match n with
  | O => []
  | S k => u mod 256 :: le_bytes k (u / 256)
  end.

Fixpoint le_value (bs : list byte) : Z :=
  match bs with
  | [] => 0
  | b :: r => b + 256 * le_value r
  end.

Definition object_bytes (h : host) (t : int_type) (u : Z) : list byte :=
  match native h with
  | little => le_bytes (size_of t) u
  | big => rev (le_bytes (size_of t) u)
  end.

Definition object_value (h : host) (bs : list byte) : Z :=
  match native h with
  | little => le_value bs
  | big => le_value (rev bs)
  end.

(** [little_endian_byte_iterator]: on a little-endian host the pointer to the
    scalar, otherwise [std::make_reverse_iterator] of that same pointer. *)
Definition little_endian_byte_iterator (h : host) (o : object) : iterator :=
  match native h with
  | little => pointer o 0
  | big => reverse_iterator o 0
  end.

Definition little_endian_byte_end_iterator (h : host) (t : int_type)
    (o : object) : iterator :=
  next (little_endian_byte_iterator h o) (Z.of_nat (size_of t)).

(** ** class N_byte_int<Int, Num_bytes, Byte_order> *)

Record params : Set :=
  { Int : int_type; Num_bytes : nat; Byte_order : endian }.

(** The stored state is the member [data_], an array of Num_bytes bytes. *)
Definition well_formed (p : params) (data_ : list byte) : Prop :=
  length data_ = Num_bytes p /\ Forall is_byte data_.

(** The enable_if of the class template. *)
Definition valid_params (p : params) : Prop :=
  (Num_bytes p <= size_of (Int p))%nat.

(** [data_.begin()] or [data_.rbegin()], and [data_.end()] or
    [data_.rend()], by the byte order of the type. *)
Definition data_begin_little_endian (p : params) : iterator :=
  match Byte_order p with
  | little => pointer obj_data 0
  | big => reverse_iterator obj_data (Z.of_nat (Num_bytes p))
  end.

Definition data_end_little_endian (p : params) : iterator :=
  match Byte_order p with
  | little => pointer obj_data (Z.of_nat (Num_bytes p))
  | big => reverse_iterator obj_data 0
  end.

(** [*std::prev(data_end_little_endian())] *)
Definition data_msb (p : params) (m : memory) : option byte :=
  deref m (prev (data_end_little_endian p)).

(** [assign_value]: encode, then
    [std::copy_n(little_endian_byte_iterator(uvalue), data_.size(),
                 data_begin_little_endian())]. *)
Definition assign_value (h : host) (p : params) (value : Z)
    (data_ : list byte) : option (list byte) :=
  let U := make_unsigned_t (Int p) in
  uvalue <- (if is_signed (Int p)
             then to_twos_complement h (Int p) value
             else Some (static_cast U value)) ;;
  let m := {| mem_data := data_; mem_uvalue := object_bytes h U uvalue |} in
  m' <- copy_n m (little_endian_byte_iterator h obj_uvalue) (Num_bytes p)
          (data_begin_little_endian p) ;;
  Some (mem_data m').

(** The first half of [get_value]: the carrier [uvalue], zero or (for a
    narrower signed type whose most significant stored byte has its top bit
    set) all ones, then overwritten from its least significant byte by the
    stored bytes. *)
Definition fill_carrier (h : host) (p : params) (data_ : list byte)
  : option memory :=
  let U := make_unsigned_t (Int p) in
  let m0 := {| mem_data := data_; mem_uvalue := object_bytes h U 0 |} in
  uvalue <-
    (if is_signed (Int p) && (Num_bytes p <? size_of (Int p))%nat then
       msb <- data_msb p m0 ;;
       if negb (Z.land msb 128 =? 0) then
         complement <- arith (promote h U) (Z.lnot 0) ;;
         Some (static_cast U complement)
       else Some 0
     else Some 0) ;;
  let m := {| mem_data := data_; mem_uvalue := object_bytes h U uvalue |} in
  copy_n m (data_begin_little_endian p) (Num_bytes p)
    (little_endian_byte_iterator h obj_uvalue).

(** [get_value] returns the value read; the buffer it leaves behind is
    returned with it. *)
Definition get_value (h : host) (p : params) (data_ : list byte)
  : option (Z * list byte) :=
  let U := make_unsigned_t (Int p) in
  m' <- fill_carrier h p data_ ;;
  let uvalue := object_value h (mem_uvalue m') in
  result <- (if is_signed (Int p)
             then from_twos_complement h U uvalue
             else Some (static_cast (Int p) uvalue)) ;;
  Some (result, mem_data m').

(** The public interface.  The constructor runs on a [data_] that holds
    whatever bytes it was default-initialised with. *)
Definition construct (h : host) (p : params) (value : Z)
    (indeterminate : list byte) : option (list byte) :=
  assign_value h p value indeterminate.

Definition default_construct (h : host) (p : params)
    (indeterminate : list byte) : option (list byte) :=
  construct h p 0 indeterminate.

Definition assign (h : host) (p : params) (value : Z) (data_ : list byte)
  : option (list byte) :=
  assign_value h p value data_.

Definition operator_Int (h : host) (p : params) (data_ : list byte)
  : option (Z * list byte) :=
  get_value h p data_.

Definition value (h : host) (p : params) (data_ : list byte)
  : option (Z * list byte) :=
  get_value h p data_.

(** [bytes()] returns [data_]; like the other observers it is given with
    the buffer it leaves. *)
Definition bytes (p : params) (data_ : list byte) : list byte * list byte :=
  (data_, data_).

(** Construction followed by read-back. *)
Definition read_back (h : host) (p : params) (v : Z)
    (indeterminate : list byte) : option Z :=
  stored <- construct h p v indeterminate ;;
  r <- value h p stored ;;
  Some (fst r).

(** ** Concrete platforms and types used in examples *)

Definition le32 : host := {| native := little; sizeof_int := 4 |}.
Definition be32 : host := {| native := big; sizeof_int := 4 |}.

Definition int8 : int_type := {| size_of := 1; is_signed := true |}.
Definition int16 : int_type := {| size_of := 2; is_signed := true |}.
Definition int32 : int_type := {| size_of := 4; is_signed := true |}.
Definition uint32 : int_type := {| size_of := 4; is_signed := false |}.
Definition int64 : int_type := {| size_of := 8; is_signed := true |}.

Definition N_byte_int (t : int_type) (n : nat) (o : endian) : params :=
  {| Int := t; Num_bytes := n; Byte_order := o |}.

(** ** Vocabulary of the properties *)

(** The value a bit pattern of width w stands for in two's complement. *)
Definition twos_complement_value (w : Z) (u : Z) : Z :=
  if u <? 2 ^ (w - 1) then u else u - 2 ^ w.

(** The stored bytes from the least significant one. *)
Definition lsb_first (p : params) (data_ : list byte) : list byte :=
  match Byte_order p with
  | little => data_
  | big => rev data_
  end.

(** The most significant stored byte. *)
Definition msb_of (p : params) (data_ : list byte) : byte :=
  last (lsb_first p data_) 0.

Definition stored_bits (p : params) : Z := Z.of_nat (Num_bytes p) * CHAR_BIT.

(** v fits in Num_bytes bytes. *)
Definition fits (p : params) (v : Z) : Prop :=
  if is_signed (Int p)
  then - 2 ^ (stored_bits p - 1) <= v < 2 ^ (stored_bits p - 1)
  else 0 <= v < 2 ^ stored_bits p.

(** The value that the low 8 * Num_bytes bits x stand for. *)
Definition decode_stored (p : params) (x : Z) : Z :=
  if is_signed (Int p) then twos_complement_value (stored_bits p) x else x.

(** The native-width pattern of a value of Int. *)
Definition native_pattern (t : int_type) (v : Z) : Z := v mod 2 ^ bits t.

(** The values on which the encoding step of [assign_value] stays clear of
    [value * -1] overflowing. *)
Definition encodable (h : host) (t : int_type) (v : Z) : Prop :=
  is_signed t = true -> (sizeof_int h <= size_of t)%nat -> v <> int_min t.

(** The byte the carrier of [get_value] holds above the stored bytes. *)
Definition extension_byte (p : params) (data_ : list byte) : byte :=
  if is_signed (Int p) && (Num_bytes p <? size_of (Int p))%nat
     && Z.testbit (msb_of p data_) 7
  then 255 else 0.

(** The buffers an instance can hold: those left by the constructor and by
    assignment of values of Int. *)
Inductive reachable (h : host) (p : params) : list byte -> Prop :=
  | reach_construct (v : Z) (indeterminate data_ : list byte) :
      representable (Int p) v = true ->
      length indeterminate = Num_bytes p ->
      construct h p v indeterminate = Some data_ ->
      reachable h p data_
  | reach_assign (v : Z) (before data_ : list byte) :
      representable (Int p) v = true ->
      reachable h p before ->
      assign h p v before = Some data_ ->
      reachable h p data_.

(** The buffers whose decoding stays clear of the overflow of
    [from_twos_complement]. *)
Definition decodable (h : host) (p : params) (data_ : list byte) : Prop :=
  is_signed (Int p) = true ->
  Num_bytes p = size_of (Int p) ->
  (sizeof_int h <= size_of (Int p))%nat ->
  le_value (lsb_first p data_) <> 2 ^ (bits (Int p) - 1).

(** What [bytes()] returns on an instance constructed from v. *)
Definition constructed_bytes (h : host) (p : params) (v : Z)
    (indeterminate : list byte) : option (list byte) :=
  data_ <- construct h p v indeterminate ;;
  Some (fst (bytes p data_)).

(** * Arithmetic of integral types *)

Lemma mod_window (a m k : Z) :
  0 < m -> k * m <= a < (k + 1) * m -> a mod m = a - k * m.
Proof.
  intros Hm Ha. symmetry.
  apply Z.mod_unique with (q := k); lia.
Qed.

Lemma bits_pos (t : int_type) : (1 <= size_of t)%nat -> 8 <= bits t.
Proof. unfold bits, CHAR_BIT. lia. Qed.

Lemma pow2_half (w : Z) : 1 <= w -> 2 ^ w = 2 * 2 ^ (w - 1).
Proof.
  intros Hw. rewrite <- Z.pow_succ_r by lia. f_equal. lia.
Qed.

Lemma pow2_half_pos (w : Z) : 1 <= w -> 0 < 2 ^ (w - 1).
Proof. intros Hw. apply Z.pow_pos_nonneg; lia. Qed.

Lemma pow2_narrow (w iw : Z) :
  1 <= w -> w < iw -> 2 * 2 ^ (w - 1) <= 2 ^ (iw - 1).
Proof.
  intros Hw Hlt. rewrite <- pow2_half by lia.
  apply Z.pow_le_mono_r; lia.
Qed.

(** The three facts about the width of a type that every proof about the
    codec starts from. *)
Ltac width_facts t Hsz :=
  pose proof (bits_pos t Hsz) as Hw;
  pose proof (pow2_half (bits t) ltac:(lia)) as Hpow;
  pose proof (pow2_half_pos (bits t) ltac:(lia)) as HP.

Lemma pow2_bits (t : int_type) : 2 ^ bits t = 256 ^ Z.of_nat (size_of t).
Proof.
  unfold bits, CHAR_BIT. rewrite Z.mul_comm, Z.pow_mul_r by lia. reflexivity.
Qed.

Lemma pow256_pos (n : nat) : 0 < 256 ^ Z.of_nat n.
Proof. apply Z.pow_pos_nonneg; lia. Qed.

Lemma pow256_succ (n : nat) : 256 ^ Z.of_nat (S n) = 256 * 256 ^ Z.of_nat n.
Proof. rewrite Nat2Z.inj_succ, Z.pow_succ_r by lia. reflexivity. Qed.

Lemma pow256_add (n m : nat) :
  256 ^ Z.of_nat (n + m) = 256 ^ Z.of_nat n * 256 ^ Z.of_nat m.
Proof. rewrite Nat2Z.inj_add, Z.pow_add_r by lia. reflexivity. Qed.

(** The shape of [promote]: either the type is narrower than [int] and is
    computed with in [int], whose range holds twice the type's modulus, or it
    is computed with in itself. *)
Lemma promote_cases (h : host) (t : int_type) :
  (1 <= size_of t)%nat ->
  ((size_of t < sizeof_int h)%nat /\ promote h t = int_t h /\
   2 * 2 ^ (bits t - 1) <= 2 ^ (bits (int_t h) - 1)) \/
  ((sizeof_int h <= size_of t)%nat /\ promote h t = t).
Proof.
  intros Hsz. unfold promote.
  destruct (Nat.ltb_spec (size_of t) (sizeof_int h)) as [Hlt | Hge].
  - left. repeat split; trivial.
    apply pow2_narrow; unfold bits, CHAR_BIT; simpl; lia.
  - right. split; trivial.
Qed.

Lemma promote_narrow (h : host) (t : int_type) :
  (size_of t < sizeof_int h)%nat -> promote h t = int_t h.
Proof.
  intros Hlt. unfold promote.
  now destruct (Nat.ltb_spec (size_of t) (sizeof_int h)); [| lia].
Qed.

Lemma promote_wide (h : host) (t : int_type) :
  (sizeof_int h <= size_of t)%nat -> promote h t = t.
Proof.
  intros Hge. unfold promote.
  now destruct (Nat.ltb_spec (size_of t) (sizeof_int h)); [lia |].
Qed.

Lemma arith_signed (t : int_type) (v : Z) :
  is_signed t = true ->
  - 2 ^ (bits t - 1) <= v < 2 ^ (bits t - 1) ->
  arith t v = Some v.
Proof.
  intros Hs Hv. unfold arith, representable, int_min, int_max.
  rewrite Hs.
  replace ((- 2 ^ (bits t - 1) <=? v) && (v <=? 2 ^ (bits t - 1) - 1))
    with true;
    trivial.
  symmetry. apply andb_true_iff. split; apply Z.leb_le; lia.
Qed.

Lemma arith_signed_overflow (t : int_type) (v : Z) :
  is_signed t = true ->
  v < - 2 ^ (bits t - 1) \/ 2 ^ (bits t - 1) <= v ->
  arith t v = None.
Proof.
  intros Hs Hv. unfold arith, representable, int_min, int_max.
  rewrite Hs.
  replace ((- 2 ^ (bits t - 1) <=? v) && (v <=? 2 ^ (bits t - 1) - 1))
    with false;
    trivial.
  symmetry. apply andb_false_iff.
  destruct Hv; [left | right]; apply Z.leb_gt; lia.
Qed.

Lemma arith_unsigned (t : int_type) (v : Z) :
  is_signed t = false -> arith t v = Some (v mod 2 ^ bits t).
Proof. intros Hs. unfold arith. now rewrite Hs. Qed.

Lemma representable_signed (t : int_type) (v : Z) :
  is_signed t = true ->
  representable t v = true <-> - 2 ^ (bits t - 1) <= v < 2 ^ (bits t - 1).
Proof.
  intros Hs. unfold representable, int_min, int_max. rewrite Hs.
  rewrite andb_true_iff, !Z.leb_le. lia.
Qed.

Lemma representable_unsigned (t : int_type) (v : Z) :
  is_signed t = false ->
  representable t v = true <-> 0 <= v < 2 ^ bits t.
Proof.
  intros Hs. unfold representable, int_min, int_max. rewrite Hs.
  rewrite andb_true_iff, !Z.leb_le. lia.
Qed.

Lemma representable_zero (t : int_type) :
  (1 <= size_of t)%nat -> representable t 0 = true.
Proof.
  intros Hsz. pose proof (bits_pos t Hsz) as Hw.
  pose proof (pow2_half_pos (bits t) ltac:(lia)) as HP.
  pose proof (pow2_half (bits t) ltac:(lia)) as Hpow.
  destruct (is_signed t) eqn:Hs.
  - apply representable_signed; trivial. lia.
  - apply representable_unsigned; trivial. lia.
Qed.

Lemma bits_make_unsigned (t : int_type) : bits (make_unsigned_t t) = bits t.
Proof. reflexivity. Qed.

Lemma bits_make_signed (t : int_type) : bits (make_signed_t t) = bits t.
Proof. reflexivity. Qed.

Lemma static_cast_unsigned (t : int_type) (v : Z) :
  static_cast (make_unsigned_t t) v = v mod 2 ^ bits t.
Proof. reflexivity. Qed.

Lemma static_cast_signed (t : int_type) (v : Z) :
  static_cast (make_signed_t t) v =
  (v + 2 ^ (bits t - 1)) mod 2 ^ bits t - 2 ^ (bits t - 1).
Proof. reflexivity. Qed.

(** The mask test of [from_twos_complement]. *)
Lemma land_top_bit (k u : Z) :
  0 <= k -> 0 <= u < 2 * 2 ^ k ->
  (Z.land u (2 ^ k) =? 0) = (u <? 2 ^ k).
Proof.
  intros Hk Hu.
  assert (HP : 0 < 2 ^ k) by (apply Z.pow_pos_nonneg; lia).
  assert (Hland : Z.land u (2 ^ k) = if Z.testbit u k then 2 ^ k else 0).
  { apply Z.bits_inj'. intros n Hn.
    rewrite Z.land_spec, Z.pow2_bits_eqb by lia.
    destruct (Z.eqb_spec k n) as [-> | Hne].
    - rewrite andb_true_r. destruct (Z.testbit u n) eqn:Hb.
      + rewrite Z.pow2_bits_true; trivial.
      + now rewrite Z.bits_0.
    - rewrite andb_false_r. destruct (Z.testbit u k).
      + rewrite Z.pow2_bits_false; trivial.
      + now rewrite Z.bits_0. }
  rewrite Hland.
  destruct (Z.ltb_spec u (2 ^ k)) as [Hlt | Hge].
  - rewrite (proj2 (Z.testbit_false u k Hk)).
    + reflexivity.
    + rewrite Z.div_small by lia. reflexivity.
  - rewrite (proj2 (Z.testbit_true u k Hk)).
    + apply Z.eqb_neq. lia.
    + replace (u / 2 ^ k) with 1; [reflexivity |].
      apply Z.div_unique with (r := u - 2 ^ k); lia.
Qed.

Lemma testbit_top (k u : Z) :
  0 <= k -> 0 <= u < 2 * 2 ^ k ->
  Z.testbit u k = negb (u <? 2 ^ k).
Proof.
  intros Hk Hu.
  assert (HP : 0 < 2 ^ k) by (apply Z.pow_pos_nonneg; lia).
  destruct (Z.ltb_spec u (2 ^ k)) as [Hlt | Hge]; cbn [negb].
  - apply Z.testbit_false; trivial.
    rewrite Z.div_small by lia. reflexivity.
  - apply Z.testbit_true; trivial.
    replace (u / 2 ^ k) with 1; [reflexivity |].
    apply Z.div_unique with (r := u - 2 ^ k); lia.
Qed.

(** The test [(data_msb() & std::byte{0x80}) != std::byte{0}] reads bit 7. *)
Lemma sign_test (b : byte) :
  is_byte b -> negb (Z.land b 128 =? 0) = Z.testbit b 7.
Proof.
  intros Hb. unfold is_byte in Hb.
  change 128 with (2 ^ 7).
  rewrite land_top_bit, testbit_top by (change (2 ^ 7) with 128; lia).
  reflexivity.
Qed.

Lemma testbit_7 (b : byte) :
  is_byte b -> Z.testbit b 7 = (128 <=? b).
Proof.
  intros Hb. unfold is_byte in Hb.
  rewrite testbit_top by (change (2 ^ 7) with 128; lia).
  change (2 ^ 7) with 128.
  destruct (Z.ltb_spec b 128), (Z.leb_spec 128 b); trivial; lia.
Qed.

(** * The two's-complement codec *)

(** [to_twos_complement] away from the overflow: the pattern of v is v
    modulo 2^bits. *)
Lemma to_twos_complement_value (h : host) (t : int_type) (v : Z) :
  is_signed t = true ->
  (1 <= size_of t)%nat ->
  representable t v = true ->
  (size_of t < sizeof_int h)%nat \/ v <> int_min t ->
  to_twos_complement h t v = Some (v mod 2 ^ bits t).
Proof.
  intros Hs Hsz Hrep Hok.
  apply representable_signed in Hrep; trivial.
  unfold to_twos_complement. cbv zeta.
  destruct (Z.leb_spec 0 v) as [Hpos | Hneg].
  { reflexivity. }
  width_facts t Hsz.
  unfold Z.lnot.
  destruct (promote_cases h t Hsz) as [(Hlt & Hpr & Hint) | (Hge & Hpr)].
  - rewrite Hpr, (promote_narrow h (make_unsigned_t t)) by exact Hlt.
    rewrite arith_signed by (trivial; lia). cbn [bind].
    rewrite !static_cast_unsigned, Hpow.
    rewrite (mod_window (v * -1) _ 0) by lia.
    rewrite arith_signed by (trivial; lia). cbn [bind].
    rewrite arith_signed by (trivial; lia). cbn [bind].
    rewrite !static_cast_unsigned, Hpow.
    f_equal. f_equal. lia.
  - rewrite Hpr, (promote_wide h (make_unsigned_t t)) by exact Hge.
    assert (Hne : v <> - 2 ^ (bits t - 1)).
    { destruct Hok as [Hlt | Hne]; [lia |].
      unfold int_min in Hne. now rewrite Hs in Hne. }
    rewrite arith_signed by (trivial; lia). cbn [bind].
    rewrite !static_cast_unsigned, Hpow.
    rewrite (mod_window (v * -1) _ 0) by lia.
    rewrite arith_unsigned by reflexivity. cbn [bind].
    rewrite arith_unsigned by reflexivity. cbn [bind].
    rewrite !static_cast_unsigned, bits_make_unsigned, Hpow. f_equal.
    rewrite (mod_window (Z.pred _) _ (-1)) by lia.
    rewrite (mod_window (_ + 1) _ 0) by lia.
    rewrite (mod_window v _ (-1)) by lia.
    rewrite (mod_window _ _ 0) by lia. lia.
Qed.

(** The overflow: for a type that is computed with in itself, [value * -1]
    at the least value of the type is not representable. *)
Lemma to_twos_complement_min (h : host) (t : int_type) :
  is_signed t = true ->
  (1 <= size_of t)%nat ->
  (sizeof_int h <= size_of t)%nat ->
  to_twos_complement h t (int_min t) = None.
Proof.
  intros Hs Hsz Hge.
  pose proof (bits_pos t Hsz) as Hw.
  pose proof (pow2_half_pos (bits t) ltac:(lia)) as HP.
  unfold to_twos_complement, int_min. cbv zeta. rewrite Hs.
  destruct (Z.leb_spec 0 (- 2 ^ (bits t - 1))) as [Hpos | Hneg]; [lia |].
  rewrite promote_wide by exact Hge.
  rewrite arith_signed_overflow by (trivial; lia). reflexivity.
Qed.

Lemma from_twos_complement_mask (h : host) (t : int_type) :
  is_signed t = false ->
  (1 <= size_of t)%nat ->
  arith (promote h t) (Z.shiftl (static_cast t 1) (bits t - 1))
  = Some (2 ^ (bits t - 1)).
Proof.
  intros Hs Hsz.
  width_facts t Hsz.
  unfold static_cast. rewrite Hs, Hpow.
  rewrite (mod_window 1 _ 0) by lia.
  replace (1 - 0 * _) with 1 by lia.
  rewrite Z.shiftl_1_l.
  destruct (promote_cases h t Hsz) as [(Hlt & Hpr & Hint) | (Hge & Hpr)];
    rewrite Hpr.
  - apply arith_signed; [reflexivity | lia].
  - rewrite arith_unsigned by exact Hs. rewrite Hpow.
    rewrite (mod_window _ _ 0) by lia. f_equal. lia.
Qed.

(** [from_twos_complement] away from the overflow. *)
Lemma from_twos_complement_value (h : host) (t : int_type) (u : Z) :
  is_signed t = false ->
  (1 <= size_of t)%nat ->
  0 <= u < 2 ^ bits t ->
  (size_of t < sizeof_int h)%nat \/ u <> 2 ^ (bits t - 1) ->
  from_twos_complement h t u = Some (twos_complement_value (bits t) u).
Proof.
  intros Hs Hsz Hu Hok.
  width_facts t Hsz.
  unfold from_twos_complement, twos_complement_value. cbv zeta.
  rewrite from_twos_complement_mask by trivial. cbn [bind].
  rewrite land_top_bit by lia.
  destruct (Z.ltb_spec u (2 ^ (bits t - 1))) as [Hlt | Hge].
  { rewrite static_cast_signed, Hpow.
    rewrite (mod_window _ _ 0) by lia. f_equal. lia. }
  unfold Z.lnot.
  destruct (promote_cases h t Hsz) as [(Hnar & Hpr & Hint) | (Hwide & Hpr)].
  - rewrite Hpr, (promote_narrow h (make_signed_t t)) by exact Hnar.
    rewrite arith_signed by (trivial; lia). cbn [bind].
    rewrite arith_signed by (trivial; lia). cbn [bind].
    rewrite static_cast_signed, Hpow.
    destruct (Z.eq_dec u (2 ^ (bits t - 1))) as [Heq | Hne].
    + rewrite (mod_window _ _ 0) by lia.
      rewrite arith_signed by (trivial; lia). cbn [bind].
      rewrite static_cast_signed, Hpow.
      rewrite (mod_window _ _ 1) by lia. f_equal. lia.
    + rewrite (mod_window _ _ (-1)) by lia.
      rewrite arith_signed by (trivial; lia). cbn [bind].
      rewrite static_cast_signed, Hpow.
      rewrite (mod_window _ _ 0) by lia. f_equal. lia.
  - rewrite Hpr, (promote_wide h (make_signed_t t)) by exact Hwide.
    assert (Hne : u <> 2 ^ (bits t - 1)) by (destruct Hok; [lia | trivial]).
    rewrite arith_unsigned by trivial. cbn [bind].
    rewrite arith_unsigned by trivial. cbn [bind].
    rewrite static_cast_signed, Hpow.
    rewrite (mod_window (Z.pred _) _ (-1)) by lia.
    rewrite (mod_window (_ + 1) _ 0) by lia.
    rewrite (mod_window _ _ 0) by lia.
    rewrite arith_signed by (trivial; rewrite bits_make_signed; lia).
    cbn [bind].
    rewrite static_cast_signed, Hpow.
    rewrite (mod_window _ _ 0) by lia. f_equal. lia.
Qed.

(** The overflow: the pattern with only the top bit set decodes through
    [static_cast<Sint>(~value + 1) * -1], the product of the least value. *)
Lemma from_twos_complement_top (h : host) (t : int_type) :
  is_signed t = false ->
  (1 <= size_of t)%nat ->
  (sizeof_int h <= size_of t)%nat ->
  from_twos_complement h t (2 ^ (bits t - 1)) = None.
Proof.
  intros Hs Hsz Hwide.
  width_facts t Hsz.
  unfold from_twos_complement. cbv zeta.
  rewrite from_twos_complement_mask by trivial. cbn [bind].
  rewrite land_top_bit by lia.
  rewrite Z.ltb_irrefl. unfold Z.lnot.
  rewrite (promote_wide h t), (promote_wide h (make_signed_t t)) by exact Hwide.
  rewrite arith_unsigned by trivial. cbn [bind].
  rewrite arith_unsigned by trivial. cbn [bind].
  rewrite static_cast_signed, Hpow.
  rewrite (mod_window (Z.pred _) _ (-1)) by lia.
  rewrite (mod_window (_ + 1) _ 0) by lia.
  rewrite (mod_window _ _ 1) by lia.
  rewrite arith_signed_overflow; [reflexivity | reflexivity |].
  rewrite bits_make_signed. lia.
Qed.

(** [uvalue = ~uvalue] on a zero carrier leaves all bits set. *)
Lemma complement_of_zero (h : host) (t : int_type) :
  (1 <= size_of t)%nat ->
  (complement <- arith (promote h (make_unsigned_t t)) (Z.lnot 0) ;;
   Some (static_cast (make_unsigned_t t) complement))
  = Some (256 ^ Z.of_nat (size_of t) - 1).
Proof.
  intros Hsz.
  width_facts t Hsz.
  rewrite <- pow2_bits, Hpow.
  change (Z.lnot 0) with (-1).
  destruct (promote_cases h (make_unsigned_t t) Hsz)
    as [(_ & Hpr & Hint) | (_ & Hpr)]; rewrite Hpr.
  - rewrite bits_make_unsigned in Hint.
    rewrite arith_signed by (trivial; lia). cbn [bind].
    rewrite static_cast_unsigned, Hpow.
    rewrite (mod_window _ _ (-1)) by lia. f_equal. lia.
  - rewrite arith_unsigned by reflexivity. cbn [bind].
    rewrite static_cast_unsigned, bits_make_unsigned, Hpow.
    rewrite (mod_window (-1) _ (-1)) by lia.
    rewrite (mod_window _ _ 0) by lia. f_equal. lia.
Qed.

Lemma native_pattern_bounds (t : int_type) (v : Z) :
  0 <= native_pattern t v < 2 ^ bits t.
Proof.
  unfold native_pattern. apply Z.mod_pos_bound.
  apply Z.pow_pos_nonneg; unfold bits, CHAR_BIT; lia.
Qed.

Lemma native_pattern_top (t : int_type) (v : Z) :
  is_signed t = true ->
  (1 <= size_of t)%nat ->
  representable t v = true ->
  native_pattern t v = 2 ^ (bits t - 1) ->
  v = int_min t.
Proof.
  intros Hs Hsz Hrep Htop.
  apply representable_signed in Hrep; trivial.
  pose proof (bits_pos t Hsz) as Hw.
  pose proof (pow2_half (bits t) ltac:(lia)) as Hpow.
  unfold native_pattern, int_min in *. rewrite Hs. rewrite Hpow in Htop.
  destruct (Z.lt_ge_cases v 0) as [Hneg | Hpos].
  - rewrite (mod_window _ _ (-1)) in Htop by lia. lia.
  - rewrite (mod_window _ _ 0) in Htop by lia. lia.
Qed.

Lemma twos_complement_value_pattern (t : int_type) (s : Z) :
  is_signed t = true ->
  (1 <= size_of t)%nat ->
  representable t s = true ->
  twos_complement_value (bits t) (native_pattern t s) = s.
Proof.
  intros Hs Hsz Hrep.
  apply representable_signed in Hrep; trivial.
  pose proof (bits_pos t Hsz) as Hw.
  pose proof (pow2_half (bits t) ltac:(lia)) as Hpow.
  unfold twos_complement_value, native_pattern. rewrite Hpow.
  destruct (Z.lt_ge_cases s 0) as [Hneg | Hpos].
  - rewrite (mod_window _ _ (-1)) by lia.
    destruct (Z.ltb_spec (s - -1 * (2 * 2 ^ (bits t - 1))) (2 ^ (bits t - 1)));
      lia.
  - rewrite (mod_window _ _ 0) by lia.
    destruct (Z.ltb_spec (s - 0 * (2 * 2 ^ (bits t - 1))) (2 ^ (bits t - 1)));
      lia.
Qed.

Lemma encode_value (h : host) (t : int_type) (v : Z) :
  (1 <= size_of t)%nat ->
  representable t v = true ->
  encodable h t v ->
  (if is_signed t
   then to_twos_complement h t v
   else Some (static_cast (make_unsigned_t t) v))
  = Some (native_pattern t v).
Proof.
  intros Hsz Hrep Henc. unfold native_pattern.
  destruct (is_signed t) eqn:Hs; [| reflexivity].
  apply to_twos_complement_value; trivial.
  destruct (Nat.lt_ge_cases (size_of t) (sizeof_int h)) as [Hlt | Hge].
  - now left.
  - right. now apply Henc.
Qed.

Lemma encodable_zero (h : host) (t : int_type) :
  (1 <= size_of t)%nat -> encodable h t 0.
Proof.
  intros Hsz Hs _. pose proof (bits_pos t Hsz) as Hw.
  pose proof (pow2_half_pos (bits t) ltac:(lia)) as HP.
  unfold int_min. rewrite Hs. lia.
Qed.

Lemma encoding_defined (h : host) (t : int_type) (v u : Z) :
  (1 <= size_of t)%nat ->
  representable t v = true ->
  (if is_signed t
   then to_twos_complement h t v
   else Some (static_cast (make_unsigned_t t) v)) = Some u ->
  encodable h t v /\ u = native_pattern t v.
Proof.
  intros Hsz Hrep Hsome.
  assert (Henc : encodable h t v).
  { intros Hs Hwide Heq. subst v.
    rewrite Hs, to_twos_complement_min in Hsome by trivial. discriminate. }
  split; trivial.
  rewrite encode_value in Hsome by trivial. congruence.
Qed.

(** decode (encode s) = s for every value but the one that overflows. *)
Lemma decode_encode (h : host) (t : int_type) (s : Z) :
  is_signed t = true ->
  (1 <= size_of t)%nat ->
  representable t s = true ->
  encodable h t s ->
  (u <- to_twos_complement h t s ;;
   from_twos_complement h (make_unsigned_t t) u) = Some s.
Proof.
  intros Hs Hsz Hrep Henc.
  pose proof (encode_value h t s Hsz Hrep Henc) as Hu. rewrite Hs in Hu.
  rewrite Hu. cbn [bind].
  rewrite from_twos_complement_value; trivial.
  - rewrite bits_make_unsigned. f_equal.
    now apply twos_complement_value_pattern.
  - exact (native_pattern_bounds t s).
  - rewrite bits_make_unsigned.
    destruct (Nat.lt_ge_cases (size_of t) (sizeof_int h)); [now left | right].
    intros Htop. apply (Henc Hs); trivial.
    now apply native_pattern_top.
Qed.

(** encode (decode u) = u for every pattern but the one that overflows. *)
Lemma encode_decode (h : host) (t : int_type) (u : Z) :
  is_signed t = false ->
  (1 <= size_of t)%nat ->
  0 <= u < 2 ^ bits t ->
  (size_of t < sizeof_int h)%nat \/ u <> 2 ^ (bits t - 1) ->
  (s <- from_twos_complement h t u ;;
   to_twos_complement h (make_signed_t t) s) = Some u.
Proof.
  intros Hs Hsz Hu Hok.
  width_facts t Hsz.
  rewrite from_twos_complement_value by trivial. cbn [bind].
  unfold twos_complement_value.
  destruct (Z.ltb_spec u (2 ^ (bits t - 1))) as [Hlt | Hge].
  - rewrite to_twos_complement_value; trivial.
    + rewrite bits_make_signed. f_equal. apply Z.mod_small. lia.
    + apply representable_signed; [reflexivity |].
      rewrite bits_make_signed. lia.
    + right. unfold int_min. cbn [is_signed make_signed_t].
      rewrite bits_make_signed. lia.
  - rewrite to_twos_complement_value; trivial.
    + rewrite bits_make_signed, Hpow. f_equal.
      rewrite (mod_window _ _ (-1)) by lia. lia.
    + apply representable_signed; [reflexivity |].
      rewrite bits_make_signed. lia.
    + destruct Hok as [Hnarrow | Hne]; [now left | right].
      unfold int_min. cbn [is_signed make_signed_t].
      rewrite bits_make_signed. lia.
Qed.

(** * Bytes of a scalar *)

Lemma length_le_bytes (n : nat) (u : Z) : length (le_bytes n u) = n.
Proof. revert u. induction n as [| n IH]; intros u; simpl; auto. Qed.

Lemma le_bytes_is_byte (n : nat) (u : Z) : Forall is_byte (le_bytes n u).
Proof.
  revert u. induction n as [| n IH]; intros u; simpl; constructor; auto.
  unfold is_byte. apply Z.mod_pos_bound. lia.
Qed.

Lemma le_value_le_bytes (n : nat) (u : Z) :
  le_value (le_bytes n u) = u mod 256 ^ Z.of_nat n.
Proof.
  revert u. induction n as [| n IH]; intros u.
  - simpl. now rewrite Z.mod_1_r.
  - cbn [le_bytes le_value]. rewrite IH, pow256_succ.
    rewrite Z.rem_mul_r; [reflexivity | lia | apply pow256_pos].
Qed.

Lemma le_value_bounds (bs : list byte) :
  Forall is_byte bs -> 0 <= le_value bs < 256 ^ Z.of_nat (length bs).
Proof.
  induction 1 as [| b r Hb Hr IH].
  - simpl. lia.
  - cbn [le_value length]. rewrite pow256_succ. unfold is_byte in Hb. lia.
Qed.

Lemma le_bytes_le_value (bs : list byte) :
  Forall is_byte bs -> le_bytes (length bs) (le_value bs) = bs.
Proof.
  induction 1 as [| b r Hb Hr IH].
  - reflexivity.
  - cbn [le_value length le_bytes]. unfold is_byte in Hb.
    replace ((b + 256 * le_value r) mod 256) with b.
    + replace ((b + 256 * le_value r) / 256) with (le_value r).
      * now rewrite IH.
      * apply Z.div_unique with (r := b); lia.
    + apply Z.mod_unique with (q := le_value r); lia.
Qed.

Lemma le_value_app (a b : list byte) :
  le_value (a ++ b) = le_value a + 256 ^ Z.of_nat (length a) * le_value b.
Proof.
  induction a as [| x a IH].
  - cbn [app le_value length]. change (Z.of_nat 0) with 0.
    rewrite Z.pow_0_r. lia.
  - cbn [app le_value length]. rewrite IH, pow256_succ. lia.
Qed.

Lemma firstn_le_bytes (n m : nat) (u : Z) :
  (n <= m)%nat -> firstn n (le_bytes m u) = le_bytes n u.
Proof.
  revert m u. induction n as [| n IH]; intros m u Hle.
  - reflexivity.
  - destruct m as [| m]; [lia |]. cbn [le_bytes firstn].
    rewrite IH by lia. reflexivity.
Qed.

Lemma skipn_le_bytes (n m : nat) (u : Z) :
  skipn n (le_bytes (n + m) u) = le_bytes m (u / 256 ^ Z.of_nat n).
Proof.
  revert u. induction n as [| n IH]; intros u.
  - simpl. now rewrite Z.div_1_r.
  - cbn [Nat.add le_bytes skipn]. rewrite IH, pow256_succ.
    rewrite Z.div_div by (try apply pow256_pos; lia). reflexivity.
Qed.

Lemma le_bytes_split (n m : nat) (u : Z) :
  le_bytes (n + m) u = le_bytes n u ++ le_bytes m (u / 256 ^ Z.of_nat n).
Proof.
  rewrite <- (firstn_skipn n (le_bytes (n + m) u)).
  rewrite firstn_le_bytes by lia. now rewrite skipn_le_bytes.
Qed.

Lemma le_bytes_zero (n : nat) : le_bytes n 0 = repeat 0 n.
Proof.
  induction n as [| n IH]; [reflexivity |].
  cbn [le_bytes repeat]. rewrite Z.mod_0_l, Z.div_0_l by lia.
  now rewrite IH.
Qed.

Lemma le_bytes_ones (n k : nat) :
  le_bytes n (256 ^ Z.of_nat (n + k) - 1) = repeat 255 n.
Proof.
  induction n as [| n IH]; [reflexivity |].
  cbn [le_bytes repeat Nat.add]. rewrite pow256_succ.
  pose proof (pow256_pos (n + k)) as Hpos.
  replace ((256 * 256 ^ Z.of_nat (n + k) - 1) mod 256) with 255
    by (apply Z.mod_unique with (q := 256 ^ Z.of_nat (n + k) - 1); lia).
  replace ((256 * 256 ^ Z.of_nat (n + k) - 1) / 256)
    with (256 ^ Z.of_nat (n + k) - 1)
    by (apply Z.div_unique with (r := 255); lia).
  now rewrite IH.
Qed.

Lemma le_bytes_all_ones (n : nat) :
  le_bytes n (256 ^ Z.of_nat n - 1) = repeat 255 n.
Proof.
  pose proof (le_bytes_ones n 0) as H. now rewrite Nat.add_0_r in H.
Qed.

Lemma le_value_repeat_zero (k : nat) : le_value (repeat 0 k) = 0.
Proof. induction k as [| k IH]; cbn [repeat le_value]; lia. Qed.

Lemma le_value_repeat_ones (k : nat) :
  le_value (repeat 255 k) = 256 ^ Z.of_nat k - 1.
Proof.
  induction k as [| k IH]; [reflexivity |].
  cbn [repeat le_value]. rewrite IH, pow256_succ. lia.
Qed.

Lemma carrier_value (l : list byte) (e : byte) (k : nat) :
  e = 0 \/ e = 255 ->
  le_value (l ++ repeat e k)
  = le_value l
    + 256 ^ Z.of_nat (length l)
      * (if e =? 255 then 256 ^ Z.of_nat k - 1 else 0).
Proof.
  intros [-> | ->]; rewrite le_value_app; cbn [Z.eqb Pos.eqb].
  - now rewrite le_value_repeat_zero.
  - now rewrite le_value_repeat_ones.
Qed.

Lemma le_value_top (l : list byte) :
  Forall is_byte l -> l <> [] ->
  (128 <=? last l 0)
  = (128 * 256 ^ Z.of_nat (length l - 1) <=? le_value l).
Proof.
  intros Hall Hne.
  rewrite (app_removelast_last 0 Hne) at 2 3.
  rewrite (app_removelast_last 0 Hne) in Hall.
  apply Forall_app in Hall. destruct Hall as [Hinit Hlast].
  apply Forall_inv in Hlast. unfold is_byte in Hlast.
  rewrite le_value_app, length_app. cbn [le_value length].
  replace (length (removelast l) + 1 - 1)%nat with (length (removelast l))
    by lia.
  pose proof (le_value_bounds _ Hinit) as Hb.
  pose proof (pow256_pos (length (removelast l))) as Hpos.
  set (q := 256 ^ Z.of_nat (length (removelast l))) in *.
  set (x := le_value (removelast l)) in *.
  set (b := last l 0) in *.
  destruct (Z.leb_spec 128 b), (Z.leb_spec (128 * q) (x + q * (b + 256 * 0)));
    trivial; nia.
Qed.

Lemma last_is_byte (l : list byte) :
  Forall is_byte l -> is_byte (last l 0).
Proof.
  induction 1 as [| x l Hx Hl IH].
  - simpl. unfold is_byte. lia.
  - destruct l; [exact Hx | exact IH].
Qed.

(** * Memory and std::copy_n *)

Lemma nth_error_middle (l r : list byte) (b : byte) :
  nth_error (l ++ b :: r) (length l) = Some b.
Proof. induction l as [| x l IH]; simpl; auto. Qed.

Lemma set_nth_middle (l r : list byte) (x b : byte) :
  set_nth (l ++ x :: r) (length l) b = l ++ b :: r.
Proof. induction l as [| y l IH]; simpl; [| rewrite IH]; reflexivity. Qed.

Lemma length_set_nth (l : list byte) (n : nat) (b : byte) :
  length (set_nth l n b) = length l.
Proof.
  revert n. induction l as [| y l IH]; intros [| n]; simpl; auto.
Qed.

Lemma with_contents_same (m : memory) (o : object) :
  with_contents m o (contents m o) = m.
Proof. destruct m, o; reflexivity. Qed.

Lemma with_contents_twice (m : memory) (o : object) (l1 l2 : list byte) :
  with_contents (with_contents m o l1) o l2 = with_contents m o l2.
Proof. destruct m, o; reflexivity. Qed.

Lemma contents_with_contents (m : memory) (o : object) (l : list byte) :
  contents (with_contents m o l) o = l.
Proof. destruct m, o; reflexivity. Qed.

Lemma contents_with_contents_other (m : memory) (o o' : object)
    (l : list byte) :
  o <> o' -> contents (with_contents m o l) o' = contents m o'.
Proof. destruct m, o, o'; intros Hne; try reflexivity; congruence. Qed.

Lemma load_middle (m : memory) (o : object) (l r : list byte) (b : byte) :
  contents m o = l ++ b :: r ->
  load m o (Z.of_nat (length l)) = Some b.
Proof.
  intros Hc. unfold load.
  destruct (Z.leb_spec 0 (Z.of_nat (length l))); [| lia].
  rewrite Nat2Z.id, Hc. apply nth_error_middle.
Qed.

Lemma store_middle (m : memory) (o : object) (l r : list byte) (x b : byte) :
  contents m o = l ++ x :: r ->
  store m o (Z.of_nat (length l)) b = Some (with_contents m o (l ++ b :: r)).
Proof.
  intros Hc. unfold store. rewrite Hc, Nat2Z.id, set_nth_middle.
  replace ((0 <=? Z.of_nat (length l)) &&
           (Z.of_nat (length l) <? Z.of_nat (length (l ++ x :: r))))
    with true; [reflexivity |].
  symmetry. apply andb_true_iff. split.
  - apply Z.leb_le. lia.
  - apply Z.ltb_lt. rewrite length_app. simpl. lia.
Qed.

Lemma load_before (m : memory) (o : object) (i : Z) :
  i < 0 -> load m o i = None.
Proof. intros Hi. unfold load. now destruct (Z.leb_spec 0 i); [lia |]. Qed.

Lemma store_before (m : memory) (o : object) (i : Z) (b : byte) :
  i < 0 -> store m o i b = None.
Proof. intros Hi. unfold store. now destruct (Z.leb_spec 0 i); [lia |]. Qed.

(** [copy_n] between two different objects, both walked forwards: the bytes
    read replace the bytes of the same positions in the destination. *)
Lemma copy_n_forward (o1 o2 : object) (src : list byte) :
  o1 <> o2 ->
  forall (spre spost pre mid post : list byte) (m : memory),
    contents m o1 = spre ++ src ++ spost ->
    contents m o2 = pre ++ mid ++ post ->
    length mid = length src ->
    copy_n m (pointer o1 (Z.of_nat (length spre))) (length src)
      (pointer o2 (Z.of_nat (length pre)))
    = Some (with_contents m o2 (pre ++ src ++ post)).
Proof.
  intros Hne. induction src as [| b src IH];
    intros spre spost pre mid post m Hsrc Hdst Hlen.
  - destruct mid; [| discriminate]. cbn [copy_n length app] in *.
    now rewrite <- Hdst, with_contents_same.
  - destruct mid as [| x mid]; [discriminate |].
    cbn [copy_n length]. unfold deref, assign_through.
    cbn [iter_object iter_offset next app] in *.
    rewrite (load_middle m o1 spre (src ++ spost) b Hsrc). cbn [bind].
    rewrite (store_middle m o2 pre (mid ++ post) x b Hdst). cbn [bind].
    replace (Z.of_nat (length spre) + 1) with (Z.of_nat (length (spre ++ [b])))
      by (rewrite length_app; simpl; lia).
    replace (Z.of_nat (length pre) + 1) with (Z.of_nat (length (pre ++ [b])))
      by (rewrite length_app; simpl; lia).
    rewrite (IH (spre ++ [b]) spost (pre ++ [b]) mid post).
    + rewrite with_contents_twice, <- app_assoc. reflexivity.
    + rewrite contents_with_contents_other by congruence.
      rewrite Hsrc, <- app_assoc. reflexivity.
    + rewrite contents_with_contents, <- app_assoc. reflexivity.
    + simpl in Hlen. lia.
Qed.

(** The destination walked by a reverse iterator: the bytes read arrive in
    reverse address order. *)
Lemma copy_n_into_reverse (o1 o2 : object) (src : list byte) :
  o1 <> o2 ->
  forall (spre spost pre mid post : list byte) (m : memory),
    contents m o1 = spre ++ src ++ spost ->
    contents m o2 = pre ++ rev mid ++ post ->
    length mid = length src ->
    copy_n m (pointer o1 (Z.of_nat (length spre))) (length src)
      (reverse_iterator o2 (Z.of_nat (length pre + length mid)))
    = Some (with_contents m o2 (pre ++ rev src ++ post)).
Proof.
  intros Hne. induction src as [| b src IH];
    intros spre spost pre mid post m Hsrc Hdst Hlen.
  - destruct mid; [| discriminate]. cbn [copy_n length app rev] in *.
    now rewrite <- Hdst, with_contents_same.
  - destruct mid as [| x mid]; [discriminate |].
    cbn [copy_n length]. unfold deref, assign_through.
    cbn [iter_object iter_offset next app rev] in *.
    rewrite <- !app_assoc in Hdst. cbn [app] in Hdst.
    rewrite app_assoc in Hdst.
    rewrite (load_middle m o1 spre (src ++ spost) b Hsrc). cbn [bind].
    replace (Z.of_nat (length pre + S (length mid)) - 1)
      with (Z.of_nat (length (pre ++ rev mid)))
      by (rewrite length_app, length_rev; lia).
    rewrite (store_middle m o2 (pre ++ rev mid) post x b Hdst). cbn [bind].
    replace (Z.of_nat (length spre) + 1) with (Z.of_nat (length (spre ++ [b])))
      by (rewrite length_app; simpl; lia).
    replace (Z.of_nat (length (pre ++ rev mid)))
      with (Z.of_nat (length pre + length mid))
      by (rewrite length_app, length_rev; lia).
    rewrite (IH (spre ++ [b]) spost pre mid (b :: post)).
    + rewrite with_contents_twice, <- !app_assoc. reflexivity.
    + rewrite contents_with_contents_other by congruence.
      rewrite Hsrc, <- app_assoc. reflexivity.
    + rewrite contents_with_contents, <- app_assoc. reflexivity.
    + simpl in Hlen. lia.
Qed.

(** The source walked by a reverse iterator: its bytes are read from the
    highest address down. *)
Lemma copy_n_from_reverse (o1 o2 : object) (src : list byte) :
  o1 <> o2 ->
  forall (spre spost pre mid post : list byte) (m : memory),
    contents m o1 = spre ++ rev src ++ spost ->
    contents m o2 = pre ++ mid ++ post ->
    length mid = length src ->
    copy_n m (reverse_iterator o1 (Z.of_nat (length spre + length src)))
      (length src) (pointer o2 (Z.of_nat (length pre)))
    = Some (with_contents m o2 (pre ++ src ++ post)).
Proof.
  intros Hne. induction src as [| b src IH];
    intros spre spost pre mid post m Hsrc Hdst Hlen.
  - destruct mid; [| discriminate]. cbn [copy_n length app rev] in *.
    now rewrite <- Hdst, with_contents_same.
  - destruct mid as [| x mid]; [discriminate |].
    cbn [copy_n length]. unfold deref, assign_through.
    cbn [iter_object iter_offset next app rev] in *.
    rewrite <- !app_assoc in Hsrc. cbn [app] in Hsrc.
    rewrite app_assoc in Hsrc.
    replace (Z.of_nat (length spre + S (length src)) - 1)
      with (Z.of_nat (length (spre ++ rev src)))
      by (rewrite length_app, length_rev; lia).
    rewrite (load_middle m o1 (spre ++ rev src) spost b Hsrc). cbn [bind].
    rewrite (store_middle m o2 pre (mid ++ post) x b Hdst). cbn [bind].
    replace (Z.of_nat (length (spre ++ rev src)))
      with (Z.of_nat (length spre + length src))
      by (rewrite length_app, length_rev; lia).
    replace (Z.of_nat (length pre) + 1) with (Z.of_nat (length (pre ++ [b])))
      by (rewrite length_app; simpl; lia).
    rewrite (IH spre (b :: spost) (pre ++ [b]) mid post).
    + rewrite with_contents_twice, <- app_assoc. reflexivity.
    + rewrite contents_with_contents_other by congruence.
      rewrite Hsrc, <- app_assoc. reflexivity.
    + rewrite contents_with_contents, <- app_assoc. reflexivity.
    + simpl in Hlen. lia.
Qed.

Lemma copy_n_forward_0 (o1 o2 : object) (m : memory) (n : nat)
    (src spost mid post : list byte) :
  o1 <> o2 ->
  contents m o1 = src ++ spost ->
  contents m o2 = mid ++ post ->
  length src = n -> length mid = n ->
  copy_n m (pointer o1 0) n (pointer o2 0)
  = Some (with_contents m o2 (src ++ post)).
Proof.
  intros Hne Hsrc Hdst Hls Hlm. subst n.
  apply (copy_n_forward o1 o2 src Hne [] spost [] mid post m); trivial.
Qed.

Lemma copy_n_into_reverse_0 (o1 o2 : object) (m : memory) (n : nat)
    (src spost mid : list byte) :
  o1 <> o2 ->
  contents m o1 = src ++ spost ->
  contents m o2 = mid ->
  length src = n -> length mid = n ->
  copy_n m (pointer o1 0) n (reverse_iterator o2 (Z.of_nat n))
  = Some (with_contents m o2 (rev src)).
Proof.
  intros Hne Hsrc Hdst Hls Hlm. subst n.
  pose proof (copy_n_into_reverse o1 o2 src Hne [] spost [] (rev mid) [] m)
    as Hcopy.
  cbn [app length Nat.add] in Hcopy.
  rewrite length_rev, Hlm, rev_involutive, !app_nil_r in Hcopy.
  apply Hcopy; trivial.
Qed.

Lemma copy_n_from_reverse_0 (o1 o2 : object) (m : memory) (n : nat)
    (src mid post : list byte) :
  o1 <> o2 ->
  contents m o1 = src ->
  contents m o2 = mid ++ post ->
  length src = n -> length mid = n ->
  copy_n m (reverse_iterator o1 (Z.of_nat n)) n (pointer o2 0)
  = Some (with_contents m o2 (rev src ++ post)).
Proof.
  intros Hne Hsrc Hdst Hls Hlm. subst n.
  pose proof (copy_n_from_reverse o1 o2 (rev src) Hne [] [] [] mid post m)
    as Hcopy.
  cbn [app length Nat.add] in Hcopy.
  rewrite length_rev, rev_involutive, !app_nil_r in Hcopy.
  apply Hcopy; trivial.
Qed.

(** A reverse iterator made from the pointer to the first byte of an object
    designates the byte before the object: reading or writing through it is
    outside the object. *)
Lemma copy_n_from_reverse_of_begin (m : memory) (o : object) (n : nat)
    (result : iterator) :
  copy_n m (reverse_iterator o 0) (S n) result = None.
Proof.
  cbn [copy_n]. unfold deref. cbn [iter_object iter_offset].
  now rewrite load_before by lia.
Qed.

Lemma copy_n_into_reverse_of_begin (m : memory) (o : object) (n : nat)
    (first : iterator) :
  copy_n m first (S n) (reverse_iterator o 0) = None.
Proof.
  cbn [copy_n]. unfold assign_through. cbn [iter_object iter_offset].
  destruct (deref m first); reflexivity.
Qed.

(** [copy_n] never writes to an object other than the one its destination
    iterator walks. *)
Lemma copy_n_frame (o : object) (n : nat) :
  forall (m m' : memory) (first result : iterator),
    iter_object result <> o ->
    copy_n m first n result = Some m' ->
    contents m' o = contents m o.
Proof.
  induction n as [| n IH]; intros m m' first result Hne Hcopy.
  - cbn [copy_n] in Hcopy. now inversion Hcopy.
  - cbn [copy_n] in Hcopy.
    destruct (deref m first) as [b |]; cbn [bind] in Hcopy; [| discriminate].
    destruct (assign_through m result b) as [m1 |] eqn:Hst;
      cbn [bind] in Hcopy; [| discriminate].
    apply IH in Hcopy.
    + rewrite Hcopy. unfold assign_through, store in Hst.
      destruct (_ && _) in Hst; [| discriminate]. inversion Hst.
      now apply contents_with_contents_other.
    + now destruct result.
Qed.

(** * The stored bytes *)

Lemma lsb_first_involutive (p : params) (l : list byte) :
  lsb_first p (lsb_first p l) = l.
Proof.
  unfold lsb_first. destruct (Byte_order p); trivial. apply rev_involutive.
Qed.

Lemma length_lsb_first (p : params) (l : list byte) :
  length (lsb_first p l) = length l.
Proof.
  unfold lsb_first. destruct (Byte_order p); trivial. apply length_rev.
Qed.

Lemma Forall_lsb_first (p : params) (l : list byte) :
  Forall is_byte l -> Forall is_byte (lsb_first p l).
Proof.
  unfold lsb_first. destruct (Byte_order p); trivial. apply Forall_rev.
Qed.

Lemma lsb_first_repeat (p : params) (b : byte) (n : nat) :
  lsb_first p (repeat b n) = repeat b n.
Proof.
  unfold lsb_first. destruct (Byte_order p); trivial. apply rev_repeat.
Qed.

Lemma msb_of_is_byte (p : params) (data_ : list byte) :
  Forall is_byte data_ -> is_byte (msb_of p data_).
Proof.
  intros Hall. apply last_is_byte, Forall_lsb_first, Hall.
Qed.

Lemma stored_half (p : params) :
  (1 <= Num_bytes p)%nat ->
  2 ^ (stored_bits p - 1) = 128 * 256 ^ Z.of_nat (Num_bytes p - 1).
Proof.
  intros HN. unfold stored_bits, CHAR_BIT.
  replace (Z.of_nat (Num_bytes p) * 8 - 1)
    with (7 + 8 * Z.of_nat (Num_bytes p - 1)) by lia.
  rewrite Z.pow_add_r, Z.pow_mul_r by lia. reflexivity.
Qed.

Lemma stored_pow (p : params) :
  2 ^ stored_bits p = 256 ^ Z.of_nat (Num_bytes p).
Proof.
  unfold stored_bits, CHAR_BIT. rewrite Z.mul_comm, Z.pow_mul_r by lia.
  reflexivity.
Qed.

(** Bit 7 of the most significant stored byte is the top bit of the stored
    8 * Num_bytes bits. *)
Lemma msb_threshold (p : params) (data_ : list byte) :
  well_formed p data_ ->
  (1 <= Num_bytes p)%nat ->
  Z.testbit (msb_of p data_) 7
  = (2 ^ (stored_bits p - 1) <=? le_value (lsb_first p data_)).
Proof.
  intros [Hlen Hbytes] HN.
  rewrite testbit_7 by (apply msb_of_is_byte; trivial).
  rewrite stored_half by trivial. unfold msb_of.
  rewrite le_value_top.
  - now rewrite length_lsb_first, Hlen.
  - now apply Forall_lsb_first.
  - intros Hnil. apply (f_equal (@length Z)) in Hnil.
    rewrite length_lsb_first, Hlen in Hnil. simpl in Hnil. lia.
Qed.

(** [data_msb] is the last byte of the least-significant-first walk. *)
Lemma data_msb_value (p : params) (data_ uv : list byte) :
  length data_ = Num_bytes p ->
  (1 <= Num_bytes p)%nat ->
  data_msb p {| mem_data := data_; mem_uvalue := uv |}
  = Some (msb_of p data_).
Proof.
  intros Hlen HN. unfold data_msb, msb_of, lsb_first, data_end_little_endian,
    prev, deref.
  destruct (Byte_order p); cbn [next iter_object iter_offset].
  - assert (Hne : data_ <> [])
      by (destruct data_; simpl in *; [lia | discriminate]).
    pose proof (app_removelast_last 0 Hne) as Hsplit.
    assert (Hrl : length (removelast data_) = (Num_bytes p - 1)%nat).
    { rewrite Hsplit, length_app in Hlen. simpl in Hlen. lia. }
    replace (Z.of_nat (Num_bytes p) + -1)
      with (Z.of_nat (length (removelast data_))) by lia.
    apply load_middle with (r := []). exact Hsplit.
  - destruct data_ as [| x r]; [simpl in *; lia |].
    cbn [rev]. rewrite last_last. reflexivity.
Qed.

Lemma stored_well_formed (p : params) (u : Z) :
  well_formed p (lsb_first p (le_bytes (Num_bytes p) u)).
Proof.
  split.
  - now rewrite length_lsb_first, length_le_bytes.
  - apply Forall_lsb_first, le_bytes_is_byte.
Qed.

Lemma fits_representable (p : params) (v : Z) :
  valid_params p -> (1 <= Num_bytes p)%nat ->
  fits p v -> representable (Int p) v = true.
Proof.
  intros Hvalid HN Hfits. unfold valid_params in Hvalid. unfold fits in Hfits.
  assert (Hle : stored_bits p <= bits (Int p))
    by (unfold stored_bits, bits, CHAR_BIT; lia).
  assert (H8 : 8 <= stored_bits p) by (unfold stored_bits, CHAR_BIT; lia).
  destruct (is_signed (Int p)) eqn:Hs.
  - apply representable_signed; trivial.
    assert (2 ^ (stored_bits p - 1) <= 2 ^ (bits (Int p) - 1))
      by (apply Z.pow_le_mono_r; lia).
    lia.
  - apply representable_unsigned; trivial.
    assert (2 ^ stored_bits p <= 2 ^ bits (Int p))
      by (apply Z.pow_le_mono_r; lia).
    lia.
Qed.

Lemma low_bits_of_pattern (p : params) (v : Z) :
  valid_params p ->
  native_pattern (Int p) v mod 2 ^ stored_bits p = v mod 2 ^ stored_bits p.
Proof.
  intros Hvalid. unfold valid_params in Hvalid. unfold native_pattern.
  rewrite pow2_bits, stored_pow.
  replace (size_of (Int p))
    with (Num_bytes p + (size_of (Int p) - Num_bytes p))%nat by lia.
  rewrite pow256_add.
  pose proof (pow256_pos (Num_bytes p)).
  pose proof (pow256_pos (size_of (Int p) - Num_bytes p)).
  rewrite Z.rem_mul_r by lia.
  rewrite (Z.mul_comm (256 ^ Z.of_nat (Num_bytes p))), Z.mod_add by lia.
  apply Z.mod_mod. lia.
Qed.

Lemma decode_stored_fits (p : params) (v : Z) :
  (1 <= Num_bytes p)%nat ->
  fits p v ->
  decode_stored p (v mod 2 ^ stored_bits p) = v.
Proof.
  intros HN Hfits. unfold fits, decode_stored, twos_complement_value in *.
  assert (H8 : 8 <= stored_bits p) by (unfold stored_bits, CHAR_BIT; lia).
  pose proof (pow2_half (stored_bits p) ltac:(lia)) as Hpow.
  pose proof (pow2_half_pos (stored_bits p) ltac:(lia)) as HP.
  rewrite Hpow.
  destruct (is_signed (Int p)).
  - destruct (Z.lt_ge_cases v 0) as [Hneg | Hpos].
    + rewrite (mod_window _ _ (-1)) by lia.
      destruct (Z.ltb_spec (v - -1 * (2 * 2 ^ (stored_bits p - 1)))
                  (2 ^ (stored_bits p - 1))); lia.
    + rewrite (mod_window _ _ 0) by lia.
      destruct (Z.ltb_spec (v - 0 * (2 * 2 ^ (stored_bits p - 1)))
                  (2 ^ (stored_bits p - 1))); lia.
  - rewrite <- Hpow. apply Z.mod_small. lia.
Qed.

(** [get_value] returns the buffer it was given. *)
Lemma get_value_frame (h : host) (p : params) (data_ data' : list byte)
    (v : Z) :
  get_value h p data_ = Some (v, data') -> data' = data_.
Proof.
  unfold get_value, fill_carrier. cbv zeta. intros Hget.
  destruct (if is_signed (Int p) && _ then _ else _) as [c |];
    cbn [bind] in Hget; [| discriminate].
  destruct (copy_n _ _ _ _) as [m' |] eqn:Hcopy; cbn [bind] in Hget;
    [| discriminate].
  destruct (if is_signed (Int p) then _ else _) as [r |];
    cbn [bind] in Hget; [| discriminate].
  inversion Hget; subst.
  apply (copy_n_frame obj_data) in Hcopy; [exact Hcopy |].
  unfold little_endian_byte_iterator. destruct (native h); discriminate.
Qed.

(** At the least value of a signed type that is computed with in itself,
    construction is undefined on every host. *)
Lemma construct_int_min (h : host) (p : params) (indeterminate : list byte) :
  is_signed (Int p) = true ->
  (1 <= size_of (Int p))%nat ->
  (sizeof_int h <= size_of (Int p))%nat ->
  construct h p (int_min (Int p)) indeterminate = None.
Proof.
  intros Hs Hsz Hwide. unfold construct, assign_value. cbv zeta.
  rewrite Hs, to_twos_complement_min by trivial. reflexivity.
Qed.

(** * Little-endian hosts *)

Section LittleEndianHost.

Variable h : host.
Hypothesis Hnat : native h = little.

Variable p : params.
Hypothesis Hvalid : valid_params p.
(** On a little-endian host [assign_value] stores the Num_bytes least
    significant bytes of the pattern, in the order of the type. *)
Lemma assign_value_little_host (v : Z) (data_ : list byte) :
  length data_ = Num_bytes p ->
  assign_value h p v data_ =
  (uvalue <- (if is_signed (Int p)
              then to_twos_complement h (Int p) v
              else Some (static_cast (make_unsigned_t (Int p)) v)) ;;
   Some (lsb_first p (le_bytes (Num_bytes p) uvalue))).
Proof.
  intros Hlen. unfold assign_value. cbv zeta.
  destruct (if is_signed (Int p) then _ else _) as [u |]; cbn [bind];
    [| reflexivity].
  unfold little_endian_byte_iterator, object_bytes, data_begin_little_endian,
    lsb_first.
  rewrite Hnat. cbn [size_of make_unsigned_t].
  pose proof Hvalid as Hle; unfold valid_params in Hle.
  replace (size_of (Int p))
    with (Num_bytes p + (size_of (Int p) - Num_bytes p))%nat by lia.
  rewrite le_bytes_split.
  destruct (Byte_order p).
  - erewrite copy_n_forward_0 with (post := []);
      [ | discriminate | reflexivity | cbn [contents mem_data];
          symmetry; apply app_nil_r | apply length_le_bytes | exact Hlen ].
    cbn [bind with_contents mem_data]. now rewrite app_nil_r.
  - erewrite copy_n_into_reverse_0;
      [ | discriminate | reflexivity | reflexivity | apply length_le_bytes
        | exact Hlen ].
    reflexivity.
Qed.

Lemma assign_value_well_formed (v : Z) (before data_ : list byte) :
  length before = Num_bytes p ->
  assign_value h p v before = Some data_ ->
  well_formed p data_.
Proof.
  intros Hlen Hassign.
  rewrite assign_value_little_host in Hassign by trivial.
  destruct (if is_signed (Int p) then _ else _) as [u |];
    cbn [bind] in Hassign; [| discriminate].
  inversion Hassign. split.
  - now rewrite length_lsb_first, length_le_bytes.
  - apply Forall_lsb_first, le_bytes_is_byte.
Qed.

(** The copy of [get_value] on a little-endian host: the stored bytes, from
    the least significant one, overwrite the low bytes of the carrier. *)
Lemma copy_into_carrier (data_ : list byte) (e : byte) :
  length data_ = Num_bytes p ->
  copy_n {| mem_data := data_; mem_uvalue := repeat e (size_of (Int p)) |}
    (data_begin_little_endian p) (Num_bytes p)
    (little_endian_byte_iterator h obj_uvalue)
  = Some {| mem_data := data_;
            mem_uvalue := lsb_first p data_
                          ++ repeat e (size_of (Int p) - Num_bytes p) |}.
Proof.
  intros Hlen. pose proof Hvalid as Hle; unfold valid_params in Hle.
  unfold little_endian_byte_iterator, data_begin_little_endian, lsb_first.
  rewrite Hnat.
  set (k := (size_of (Int p) - Num_bytes p)%nat).
  replace (size_of (Int p)) with (Num_bytes p + k)%nat by (subst k; lia).
  rewrite repeat_app.
  destruct (Byte_order p).
  - erewrite copy_n_forward_0 with (spost := []);
      [ reflexivity | discriminate | cbn [contents mem_data];
        symmetry; apply app_nil_r | reflexivity | exact Hlen
        | apply repeat_length ].
  - erewrite copy_n_from_reverse_0;
      [ reflexivity | discriminate | reflexivity | reflexivity | exact Hlen
        | apply repeat_length ].
Qed.

(** From here on the type stores at least one byte. *)
Section AtLeastOneByte.

Hypothesis HN : (1 <= Num_bytes p)%nat.

(** Assignment of an encodable value on a little-endian host. *)
Lemma assign_value_stores (v : Z) (data_ : list byte) :
  length data_ = Num_bytes p ->
  representable (Int p) v = true ->
  encodable h (Int p) v ->
  assign_value h p v data_
  = Some (lsb_first p (le_bytes (Num_bytes p) (native_pattern (Int p) v))).
Proof.
  intros Hlen Hrep Henc.
  rewrite assign_value_little_host by trivial.
  pose proof Hvalid as Hle; unfold valid_params in Hle.
  rewrite encode_value by (trivial; lia). reflexivity.
Qed.

Lemma assign_value_inversion (v : Z) (before data_ : list byte) :
  length before = Num_bytes p ->
  representable (Int p) v = true ->
  assign_value h p v before = Some data_ ->
  encodable h (Int p) v /\
  data_ = lsb_first p (le_bytes (Num_bytes p) (native_pattern (Int p) v)).
Proof.
  intros Hlen Hrep Hassign.
  rewrite assign_value_little_host in Hassign by trivial.
  destruct (if is_signed (Int p) then _ else _) as [u |] eqn:Hu;
    cbn [bind] in Hassign; [| discriminate].
  pose proof Hvalid as Hle; unfold valid_params in Hle.
  apply encoding_defined in Hu; trivial; [| lia].
  destruct Hu as [Henc ->]. split; trivial. congruence.
Qed.

(** The carrier that [get_value] decodes, on a little-endian host: the
    stored bytes from the least significant one, then the extension byte up
    to the size of Int. *)
Lemma fill_carrier_little_host (data_ : list byte) :
  well_formed p data_ ->
  fill_carrier h p data_
  = Some {| mem_data := data_;
            mem_uvalue := lsb_first p data_
                          ++ repeat (extension_byte p data_)
                               (size_of (Int p) - Num_bytes p) |}.
Proof.
  intros [Hlen Hbytes].
  assert (Hsz : (1 <= size_of (Int p))%nat)
    by (pose proof Hvalid as Hle; unfold valid_params in Hle; lia).
  unfold fill_carrier. cbv zeta.
  rewrite data_msb_value by trivial. cbn [bind].
  rewrite sign_test by (apply msb_of_is_byte; trivial).
  rewrite complement_of_zero by trivial.
  unfold extension_byte, object_bytes. rewrite Hnat.
  cbn [size_of make_unsigned_t].
  destruct (is_signed (Int p) && (Num_bytes p <? size_of (Int p))%nat);
    cbn [andb bind];
    [ destruct (Z.testbit (msb_of p data_) 7); cbn [bind] | ];
    rewrite ?le_bytes_all_ones, ?le_bytes_zero;
    now apply copy_into_carrier.
Qed.

(** Read-back on a little-endian host decodes the stored bytes and leaves
    them as they were. *)
Lemma get_value_little_host (data_ : list byte) :
  well_formed p data_ ->
  decodable h p data_ ->
  get_value h p data_
  = Some (decode_stored p (le_value (lsb_first p data_)), data_).
Proof.
  intros Hwf Hdec.
  pose proof (msb_threshold p data_ Hwf HN) as Hmsb.
  destruct Hwf as [Hlen Hbytes].
  assert (Hsz : (1 <= size_of (Int p))%nat)
    by (pose proof Hvalid as Hle; unfold valid_params in Hle; lia).
  unfold get_value. cbv zeta.
  rewrite fill_carrier_little_host by (trivial; split; trivial).
  cbn [bind mem_uvalue mem_data]. unfold object_value. rewrite Hnat.
  assert (He : extension_byte p data_ = 0 \/ extension_byte p data_ = 255).
  { unfold extension_byte. destruct (_ && _); auto. }
  rewrite carrier_value by exact He.
  rewrite length_lsb_first, Hlen.
  pose proof (le_value_bounds _ (Forall_lsb_first p _ Hbytes)) as Hx.
  rewrite length_lsb_first, Hlen in Hx.
  set (x := le_value (lsb_first p data_)) in *.
  pose proof Hvalid as Hle; unfold valid_params in Hle.
  pose proof (pow2_bits (Int p)) as Hw.
  replace (size_of (Int p))
    with (Num_bytes p + (size_of (Int p) - Num_bytes p))%nat in Hw by lia.
  rewrite pow256_add in Hw.
  pose proof (pow256_pos (size_of (Int p) - Num_bytes p)) as HB.
  pose proof (stored_pow p) as HA.
  pose proof (pow2_half (stored_bits p)
                ltac:(unfold stored_bits, CHAR_BIT; lia)) as HA2.
  pose proof (pow2_half_pos (stored_bits p)
                ltac:(unfold stored_bits, CHAR_BIT; lia)) as HApos.
  pose proof (pow2_half (bits (Int p)) ltac:(pose proof (bits_pos _ Hsz); lia))
    as HW2.
  unfold decode_stored, extension_byte in *.
  destruct (is_signed (Int p)) eqn:Hs; cbn [andb] in *.
  - (* signed *)
    destruct (Nat.ltb_spec (Num_bytes p) (size_of (Int p))) as [Hlt | Hge];
      cbn [andb] in *.
    + (* narrower than Int: the carrier is sign-extended *)
      assert (HBbig : 256 <= 256 ^ Z.of_nat (size_of (Int p) - Num_bytes p)).
      { replace (size_of (Int p) - Num_bytes p)%nat
          with (S (size_of (Int p) - Num_bytes p - 1)) by lia.
        rewrite pow256_succ.
        pose proof (pow256_pos (size_of (Int p) - Num_bytes p - 1)). lia. }
      set (B := 256 ^ Z.of_nat (size_of (Int p) - Num_bytes p)) in *.
      set (A := 2 ^ (stored_bits p - 1)) in *.
      set (P := 2 ^ (bits (Int p) - 1)) in *.
      assert (HP : P = A * B) by nia.
      rewrite from_twos_complement_value; trivial.
      * cbn [bind]. f_equal. f_equal. unfold twos_complement_value.
        rewrite bits_make_unsigned. fold P. fold A.
        rewrite Hmsb.
        destruct (Z.leb_spec A x) as [Hneg | Hpos]; cbn [Z.eqb Pos.eqb].
        -- destruct (Z.ltb_spec (x + 256 ^ Z.of_nat (Num_bytes p) * (B - 1)) P),
             (Z.ltb_spec x A); nia.
        -- destruct (Z.ltb_spec (x + 256 ^ Z.of_nat (Num_bytes p) * 0) P),
             (Z.ltb_spec x A); nia.
      * rewrite bits_make_unsigned.
        destruct (Z.testbit (msb_of p data_) 7); cbn [Z.eqb Pos.eqb]; nia.
      * right. rewrite bits_make_unsigned. fold P. rewrite Hmsb.
        destruct (Z.leb_spec A x); cbn [Z.eqb Pos.eqb]; nia.
    + (* as wide as Int *)
      assert (HNeq : Num_bytes p = size_of (Int p)) by lia.
      replace (size_of (Int p) - Num_bytes p)%nat with 0%nat in * by lia.
      change (256 ^ Z.of_nat 0) with 1 in *.
      cbn [Z.eqb] in *. replace (x + 256 ^ Z.of_nat (Num_bytes p) * 0) with x
        by lia.
      assert (Hbits : stored_bits p = bits (Int p))
        by (unfold stored_bits, bits; now rewrite HNeq).
      rewrite from_twos_complement_value; trivial.
      * cbn [bind]. rewrite bits_make_unsigned, Hbits. reflexivity.
      * rewrite bits_make_unsigned. lia.
      * rewrite bits_make_unsigned.
        destruct (Nat.lt_ge_cases (size_of (Int p)) (sizeof_int h));
          [now left | right].
        apply Hdec; trivial.
  - (* unsigned *)
    cbn [Z.eqb bind]. unfold static_cast. rewrite Hs.
    rewrite (mod_window _ _ 0) by nia. f_equal. f_equal. lia.
Qed.

(** What an assignment leaves can be decoded. *)
Lemma stored_decodable (v : Z) :
  representable (Int p) v = true ->
  encodable h (Int p) v ->
  decodable h p
    (lsb_first p (le_bytes (Num_bytes p) (native_pattern (Int p) v))).
Proof.
  intros Hrep Henc Hs HNeq Hwide Htop.
  pose proof Hvalid as Hle; unfold valid_params in Hle.
  rewrite lsb_first_involutive, le_value_le_bytes, HNeq, <- pow2_bits in Htop.
  pose proof (native_pattern_bounds (Int p) v) as Hb.
  rewrite Z.mod_small in Htop by exact Hb.
  apply (Henc Hs Hwide).
  apply native_pattern_top; trivial. lia.
Qed.

(** Read-back after construction, on a little-endian host and away from the
    overflow: the low 8 * Num_bytes bits of the native pattern, decoded. *)
Lemma read_back_little_host (v : Z) (indeterminate : list byte) :
  length indeterminate = Num_bytes p ->
  representable (Int p) v = true ->
  encodable h (Int p) v ->
  read_back h p v indeterminate
  = Some (decode_stored p (native_pattern (Int p) v mod 2 ^ stored_bits p)).
Proof.
  intros Hlen Hrep Henc.
  unfold read_back, construct, value.
  rewrite assign_value_stores by trivial. cbn [bind].
  rewrite get_value_little_host; trivial.
  - cbn [bind fst].
    now rewrite lsb_first_involutive, le_value_le_bytes, stored_pow.
  - apply stored_well_formed.
  - now apply stored_decodable.
Qed.

(** Round trip of the values that fit, except where the encoding
    overflows. *)
Lemma read_back_in_range (v : Z) (indeterminate : list byte) :
  length indeterminate = Num_bytes p ->
  fits p v ->
  encodable h (Int p) v ->
  read_back h p v indeterminate = Some v.
Proof.
  intros Hlen Hfits Henc.
  rewrite read_back_little_host; trivial.
  - now rewrite low_bits_of_pattern, decode_stored_fits.
  - now apply fits_representable.
Qed.

(** Truncation of any value of Int, except where the encoding overflows. *)
Lemma read_back_truncates (v : Z) (indeterminate : list byte) :
  length indeterminate = Num_bytes p ->
  representable (Int p) v = true ->
  encodable h (Int p) v ->
  read_back h p v indeterminate
  = Some (decode_stored p (v mod 2 ^ stored_bits p)).
Proof.
  intros Hlen Hrep Henc.
  rewrite read_back_little_host; trivial.
  now rewrite low_bits_of_pattern.
Qed.

Lemma reachable_little_host (data_ : list byte) :
  reachable h p data_ ->
  exists v, representable (Int p) v = true /\ encodable h (Int p) v /\
    data_ = lsb_first p (le_bytes (Num_bytes p) (native_pattern (Int p) v)).
Proof.
  intros Hreach.
  induction Hreach as [v ind d Hrep Hlen Hc | v before d Hrep Hbefore IH Ha].
  - exists v. split; trivial.
    now apply (assign_value_inversion v ind d).
  - exists v. split; trivial.
    apply (assign_value_inversion v before d); trivial.
    destruct IH as (v0 & _ & _ & ->).
    now rewrite length_lsb_first, length_le_bytes.
Qed.

End AtLeastOneByte.

End LittleEndianHost.

(** * Big-endian hosts *)

Section BigEndianHost.

Variable h : host.
Hypothesis Hnat : native h = big.

Variable p : params.
Hypothesis HN : (1 <= Num_bytes p)%nat.

(** On a big-endian host the iterator over [uvalue] starts before the
    object, so that a copy of at least one byte leaves it. *)
Lemma assign_value_big_host (v : Z) (data_ : list byte) :
  assign_value h p v data_ = None.
Proof.
  unfold assign_value. cbv zeta.
  destruct (if is_signed (Int p) then _ else _) as [u |]; cbn [bind];
    [| reflexivity].
  unfold little_endian_byte_iterator. rewrite Hnat.
  destruct (Num_bytes p) as [| n]; [lia |].
  now rewrite copy_n_from_reverse_of_begin.
Qed.

Lemma fill_carrier_big_host (data_ : list byte) :
  fill_carrier h p data_ = None.
Proof.
  unfold fill_carrier. cbv zeta.
  destruct (if is_signed (Int p) && _ then _ else _) as [u |]; cbn [bind];
    [| reflexivity].
  unfold little_endian_byte_iterator. rewrite Hnat.
  destruct (Num_bytes p) as [| n]; [lia |].
  now rewrite copy_n_into_reverse_of_begin.
Qed.

Lemma get_value_big_host (data_ : list byte) :
  get_value h p data_ = None.
Proof.
  unfold get_value. cbv zeta.
  now rewrite fill_carrier_big_host.
Qed.

Lemma reachable_big_host (data_ : list byte) :
  ~ reachable h p data_.
Proof.
  intros Hreach.
  destruct Hreach as [v ind d _ _ Hc | v before d _ _ Ha].
  - unfold construct in Hc. now rewrite assign_value_big_host in Hc.
  - unfold assign in Ha. now rewrite assign_value_big_host in Ha.
Qed.

End BigEndianHost.

(** * Runs on a little-endian host with a four-byte int *)

Example three_byte_minus_one :
  constructed_bytes le32 (N_byte_int int32 3 little) (-1) [0; 0; 0]
  = Some [255; 255; 255] /\
  read_back le32 (N_byte_int int32 3 little) (-1) [0; 0; 0] = Some (-1).
Proof. split; reflexivity. Qed.

Example three_byte_minus_two :
  constructed_bytes le32 (N_byte_int int32 3 little) (-2) [0; 0; 0]
  = Some [254; 255; 255] /\
  constructed_bytes le32 (N_byte_int int32 3 big) (-2) [0; 0; 0]
  = Some [255; 255; 254].
Proof. split; reflexivity. Qed.

Example two_byte_truncation :
  constructed_bytes le32 (N_byte_int uint32 2 little) 70000 [0; 0]
  = Some [112; 17] /\
  read_back le32 (N_byte_int uint32 2 little) 70000 [0; 0] = Some 4464.
Proof. split; reflexivity. Qed.

Example one_byte_minus_one :
  constructed_bytes le32 (N_byte_int int32 1 little) (-1) [0] = Some [255] /\
  read_back le32 (N_byte_int int32 1 little) (-1) [0] = Some (-1).
Proof. split; reflexivity. Qed.

Example narrow_type_least_value :
  read_back le32 (N_byte_int int8 1 little) (-128) [0] = Some (-128) /\
  read_back le32 (N_byte_int int16 2 big) (-32768) [0; 0] = Some (-32768).
Proof. split; reflexivity. Qed.

(** * The properties of the specification *)

(** C1 (two's-complement codec, inverse law).  The law fails at one point of
    every signed type that is computed with in itself (int and wider): the
    encoder is undefined at the least value of the type, and the decoder is
    undefined at the pattern of that value, the one with only the top bit
    set.  Everywhere else the two functions are inverses ([decode_encode],
    [encode_decode]). *)
Theorem codec_inverse_breaks_at_least_value (h : host) (t : int_type) :
  is_signed t = true ->
  (1 <= size_of t)%nat ->
  (sizeof_int h <= size_of t)%nat ->
  to_twos_complement h t (int_min t) = None /\
  from_twos_complement h (make_unsigned_t t) (2 ^ (bits t - 1)) = None.
Proof.
  intros Hs Hsz Hwide. split.
  - now apply to_twos_complement_min.
  - now apply (from_twos_complement_top h (make_unsigned_t t)).
Qed.

Lemma codec_inverse_breaks_at_least_value_witness :
  to_twos_complement le32 int32 (int_min int32) = None /\
  from_twos_complement le32 (make_unsigned_t int32) (2 ^ (bits int32 - 1))
  = None.
Proof.
  apply (codec_inverse_breaks_at_least_value le32 int32);
    [reflexivity | simpl; lia | simpl; lia].
Defined.

(** C2 (round trip of the values that fit in Num_bytes bytes).  When
    Num_bytes is the size of a signed Int that is computed with in itself,
    the least value of Int fits, and constructing from it is undefined: no
    value is read back.  Every other value that fits is read back unchanged
    ([read_back_in_range]). *)
Theorem round_trip_undefined_at_least_value (h : host) (p : params)
    (indeterminate : list byte) :
  is_signed (Int p) = true ->
  (1 <= Num_bytes p)%nat ->
  Num_bytes p = size_of (Int p) ->
  (sizeof_int h <= size_of (Int p))%nat ->
  fits p (int_min (Int p)) /\
  read_back h p (int_min (Int p)) indeterminate = None.
Proof.
  intros Hs HN HNeq Hwide. split.
  - unfold fits, int_min, stored_bits, bits. rewrite Hs, HNeq.
    assert (0 < 2 ^ (Z.of_nat (size_of (Int p)) * CHAR_BIT - 1))
      by (apply Z.pow_pos_nonneg; unfold CHAR_BIT; lia).
    lia.
  - unfold read_back. rewrite construct_int_min by (trivial; lia).
    reflexivity.
Qed.

Lemma round_trip_undefined_at_least_value_witness :
  fits (N_byte_int int32 4 little) (int_min int32) /\
  read_back le32 (N_byte_int int32 4 little) (int_min int32) [0; 0; 0; 0]
  = None.
Proof.
  apply (round_trip_undefined_at_least_value le32
           (N_byte_int int32 4 little) [0; 0; 0; 0]);
    [reflexivity | simpl; lia | reflexivity | simpl; lia].
Defined.

(** C3 (truncation of the values that do not fit).  When Num_bytes is less
    than the size of a signed Int that is computed with in itself, the least
    value of Int does not fit, and constructing from it is undefined: no
    value is read back.  Every other value of Int is read back as its low
    8 * Num_bytes bits, decoded ([read_back_truncates]). *)
Theorem truncation_undefined_at_least_value (h : host) (p : params)
    (indeterminate : list byte) :
  is_signed (Int p) = true ->
  (1 <= Num_bytes p < size_of (Int p))%nat ->
  (sizeof_int h <= size_of (Int p))%nat ->
  representable (Int p) (int_min (Int p)) = true /\
  ~ fits p (int_min (Int p)) /\
  read_back h p (int_min (Int p)) indeterminate = None.
Proof.
  intros Hs HN Hwide.
  assert (Hlt : 2 ^ (stored_bits p - 1) < 2 ^ (bits (Int p) - 1))
    by (apply Z.pow_lt_mono_r; unfold stored_bits, bits, CHAR_BIT; lia).
  assert (Hpos : 0 < 2 ^ (stored_bits p - 1))
    by (apply Z.pow_pos_nonneg; unfold stored_bits, CHAR_BIT; lia).
  repeat split.
  - apply representable_signed; trivial. unfold int_min. rewrite Hs. lia.
  - unfold fits, int_min. rewrite Hs. lia.
  - unfold read_back. rewrite construct_int_min by (trivial; lia).
    reflexivity.
Qed.

Lemma truncation_undefined_at_least_value_witness :
  representable int32 (int_min int32) = true /\
  ~ fits (N_byte_int int32 3 little) (int_min int32) /\
  read_back le32 (N_byte_int int32 3 little) (int_min int32) [0; 0; 0] = None.
Proof.
  apply (truncation_undefined_at_least_value le32
           (N_byte_int int32 3 little) [0; 0; 0]);
    [reflexivity | simpl; lia | simpl; lia].
Defined.

(** C4 (totality).  The encoder is undefined at exactly one value of a
    signed type: the least one, when the type is computed with in itself. *)
Theorem to_twos_complement_undefined_iff (h : host) (t : int_type) (v : Z) :
  is_signed t = true ->
  (1 <= size_of t)%nat ->
  representable t v = true ->
  to_twos_complement h t v = None <->
  ((sizeof_int h <= size_of t)%nat /\ v = int_min t).
Proof.
  intros Hs Hsz Hrep. split.
  - intros Hnone.
    destruct (Nat.lt_ge_cases (size_of t) (sizeof_int h)) as [Hnarrow | Hwide].
    + rewrite to_twos_complement_value in Hnone by auto. discriminate.
    + split; trivial.
      destruct (Z.eq_dec v (int_min t)) as [Heq | Hne]; trivial.
      rewrite to_twos_complement_value in Hnone by auto. discriminate.
  - intros [Hwide ->]. now apply to_twos_complement_min.
Qed.

Lemma to_twos_complement_undefined_iff_witness :
  to_twos_complement le32 int64 (- 2 ^ 63) = None.
Proof.
  apply (to_twos_complement_undefined_iff le32 int64 (- 2 ^ 63));
    [ reflexivity | simpl; lia | reflexivity
    | split; [simpl; lia | reflexivity] ].
Defined.

(** C5 (byte layout, independent of the host).  On a big-endian host the
    walk over the carrier starts at the byte before it, so that construction
    and read-back of a type of at least one byte are undefined.  On a
    little-endian host the layout is as stated ([assign_value_stores]). *)
Theorem big_endian_host_leaves_the_carrier (h : host) (p : params) (v : Z)
    (data_ : list byte) :
  native h = big ->
  (1 <= Num_bytes p)%nat ->
  construct h p v data_ = None /\ value h p data_ = None.
Proof.
  intros Hnat HN. split.
  - now apply assign_value_big_host.
  - now apply get_value_big_host.
Qed.

Lemma big_endian_host_leaves_the_carrier_witness :
  construct be32 (N_byte_int uint32 2 little) 4660 [0; 0] = None /\
  value be32 (N_byte_int uint32 2 little) [0; 0] = None.
Proof.
  apply (big_endian_host_leaves_the_carrier be32
           (N_byte_int uint32 2 little) 4660 [0; 0]);
    [reflexivity | simpl; lia].
Defined.

(** C6 (endianness).  The bytes of the big-endian instance constructed from
    v are the bytes of the little-endian instance constructed from the same
    v, reversed; the two constructions are defined together, and on a
    little-endian host they are defined for every value whose encoding is. *)
Theorem big_endian_bytes_reverse_little (h : host) (t : int_type) (n : nat)
    (v : Z) (d1 d2 : list byte) :
  (n <= size_of t)%nat ->
  length d1 = n ->
  length d2 = n ->
  constructed_bytes h (N_byte_int t n big) v d1
  = option_map (@rev Z) (constructed_bytes h (N_byte_int t n little) v d2)
  /\ (native h = little -> (1 <= n)%nat -> representable t v = true ->
      encodable h t v ->
      exists bs, constructed_bytes h (N_byte_int t n little) v d2 = Some bs
                 /\ length bs = n).
Proof.
  intros Hn Hl1 Hl2. unfold constructed_bytes, construct, bytes. split.
  - destruct (native h) eqn:Hnat.
    + rewrite !assign_value_little_host by trivial.
      cbn [Int N_byte_int Num_bytes].
      destruct (if is_signed t then _ else _) as [u |]; reflexivity.
    + destruct n as [| n].
      * destruct d1, d2; try discriminate. unfold assign_value. cbv zeta.
        cbn [Int N_byte_int Num_bytes copy_n].
        destruct (if is_signed t then _ else _) as [u |]; reflexivity.
      * rewrite !assign_value_big_host by (trivial; simpl; lia).
        reflexivity.
  - intros Hnat Hn1 Hrep Henc.
    rewrite assign_value_stores by trivial. cbn [bind fst].
    eexists. split; [reflexivity |].
    now rewrite length_lsb_first, length_le_bytes.
Qed.

Lemma big_endian_bytes_reverse_little_witness :
  constructed_bytes le32 (N_byte_int int32 3 big) (-2) [1; 2; 3]
  = option_map (@rev Z)
      (constructed_bytes le32 (N_byte_int int32 3 little) (-2) [4; 5; 6])
  /\ (native le32 = little -> (1 <= 3)%nat ->
      representable int32 (-2) = true -> encodable le32 int32 (-2) ->
      exists bs,
        constructed_bytes le32 (N_byte_int int32 3 little) (-2) [4; 5; 6]
        = Some bs /\ length bs = 3%nat).
Proof.
  apply (big_endian_bytes_reverse_little le32 int32 3 (-2) [1; 2; 3] [4; 5; 6]);
    [simpl; lia | reflexivity | reflexivity].
Defined.

(** C7 (sign extension).  For a signed Int and fewer stored bytes than Int
    has, whatever the stored bytes are: the carrier is the stored bytes, from
    the least significant one, followed by bytes that are all ones when bit 7
    of the most significant stored byte is set and zero otherwise; the value
    read is the two's-complement value of the stored bytes; and it is
    negative exactly when that bit is set. *)
Theorem read_back_sign_extends (h : host) (p : params) (data_ : list byte) :
  native h = little ->
  is_signed (Int p) = true ->
  (1 <= Num_bytes p < size_of (Int p))%nat ->
  well_formed p data_ ->
  fill_carrier h p data_
  = Some {| mem_data := data_;
            mem_uvalue :=
              lsb_first p data_
              ++ repeat (if Z.testbit (msb_of p data_) 7 then 255 else 0)
                   (size_of (Int p) - Num_bytes p) |}
  /\ value h p data_
     = Some (twos_complement_value (stored_bits p)
               (le_value (lsb_first p data_)), data_)
  /\ (twos_complement_value (stored_bits p) (le_value (lsb_first p data_)) < 0
      <-> Z.testbit (msb_of p data_) 7 = true).
Proof.
  intros Hnat Hs HN Hwf.
  assert (Hvalid : valid_params p) by (unfold valid_params; lia).
  repeat split.
  - rewrite fill_carrier_little_host by (trivial; lia).
    unfold extension_byte. rewrite Hs.
    destruct (Nat.ltb_spec (Num_bytes p) (size_of (Int p))); [| lia].
    reflexivity.
  - unfold value. rewrite get_value_little_host; trivial; [| lia |].
    + unfold decode_stored. now rewrite Hs.
    + intros _ HNeq. lia.
  - rewrite msb_threshold by (trivial; lia).
    unfold twos_complement_value.
    destruct Hwf as [Hlen Hbytes].
    pose proof (le_value_bounds _ (Forall_lsb_first p _ Hbytes)) as Hx.
    destruct (Z.ltb_spec (le_value (lsb_first p data_))
                (2 ^ (stored_bits p - 1))); [lia |].
    intros _. apply Z.leb_le. lia.
  - rewrite msb_threshold by (trivial; lia).
    unfold twos_complement_value.
    destruct Hwf as [Hlen Hbytes].
    pose proof (le_value_bounds _ (Forall_lsb_first p _ Hbytes)) as Hx.
    rewrite length_lsb_first, Hlen, <- stored_pow in Hx.
    intros Hge. apply Z.leb_le in Hge.
    destruct (Z.ltb_spec (le_value (lsb_first p data_))
                (2 ^ (stored_bits p - 1))); lia.
Qed.

Lemma read_back_sign_extends_witness :
  value le32 (N_byte_int int32 3 big) [255; 255; 254]
  = Some (twos_complement_value (stored_bits (N_byte_int int32 3 big))
            (le_value (lsb_first (N_byte_int int32 3 big) [255; 255; 254])),
          [255; 255; 254]).
Proof.
  apply (read_back_sign_extends le32 (N_byte_int int32 3 big) [255; 255; 254]);
    [ reflexivity | reflexivity | simpl; lia | ].
  split; [reflexivity |].
  repeat constructor; unfold is_byte; lia.
Defined.

(** C8 (zero default).  Default construction leaves Num_bytes zero bytes,
    whatever the buffer held before, and reading them back yields 0. *)
Theorem default_construct_is_zero (h : host) (p : params)
    (indeterminate : list byte) :
  native h = little ->
  valid_params p ->
  (1 <= Num_bytes p)%nat ->
  length indeterminate = Num_bytes p ->
  default_construct h p indeterminate = Some (repeat 0 (Num_bytes p)) /\
  value h p (repeat 0 (Num_bytes p)) = Some (0, repeat 0 (Num_bytes p)).
Proof.
  intros Hnat Hvalid HN Hlen.
  assert (Hsz : (1 <= size_of (Int p))%nat)
    by (unfold valid_params in Hvalid; lia).
  assert (Hw : 0 < 2 ^ bits (Int p))
    by (apply Z.pow_pos_nonneg; unfold bits, CHAR_BIT; lia).
  split.
  - unfold default_construct, construct.
    rewrite assign_value_stores; trivial.
    + unfold native_pattern. rewrite Z.mod_0_l by lia.
      now rewrite le_bytes_zero, lsb_first_repeat.
    + now apply representable_zero.
    + now apply encodable_zero.
  - unfold value. rewrite get_value_little_host; trivial.
    + rewrite lsb_first_repeat, le_value_repeat_zero.
      unfold decode_stored, twos_complement_value.
      destruct (is_signed (Int p)); trivial.
      assert (0 < 2 ^ (stored_bits p - 1))
        by (apply Z.pow_pos_nonneg; unfold stored_bits, CHAR_BIT; lia).
      destruct (Z.ltb_spec 0 (2 ^ (stored_bits p - 1))); [reflexivity | lia].
    + split; [apply repeat_length |].
      apply Forall_forall. intros x Hx. apply repeat_spec in Hx. subst x.
      unfold is_byte. lia.
    + intros _ _ _. rewrite lsb_first_repeat, le_value_repeat_zero.
      assert (0 < 2 ^ (bits (Int p) - 1))
        by (apply Z.pow_pos_nonneg; pose proof (bits_pos _ Hsz); lia).
      lia.
Qed.

Lemma default_construct_is_zero_witness :
  default_construct le32 (N_byte_int uint32 4 big) [1; 2; 3; 4]
  = Some (repeat 0 4) /\
  value le32 (N_byte_int uint32 4 big) (repeat 0 4) = Some (0, repeat 0 4).
Proof.
  apply (default_construct_is_zero le32 (N_byte_int uint32 4 big) [1; 2; 3; 4]);
    [reflexivity | unfold valid_params; simpl; lia | simpl; lia | reflexivity].
Defined.

(** C9 (assignment overwrites every byte).  Two buffers of the same type
    that are assigned the same value end up the same, whatever they held;
    on a little-endian host the assignment of a value whose encoding is
    defined leaves Num_bytes bytes. *)
Theorem assignment_forgets_prior_bytes (h : host) (p : params) (v : Z)
    (d1 d2 : list byte) :
  valid_params p ->
  length d1 = Num_bytes p ->
  length d2 = Num_bytes p ->
  assign h p v d1 = assign h p v d2 /\
  (native h = little -> (1 <= Num_bytes p)%nat ->
   representable (Int p) v = true -> encodable h (Int p) v ->
   exists bs, assign h p v d1 = Some bs /\ length bs = Num_bytes p).
Proof.
  intros Hvalid Hl1 Hl2. unfold assign. split.
  - destruct (native h) eqn:Hnat.
    + now rewrite !assign_value_little_host by trivial.
    + destruct (Num_bytes p) as [| n] eqn:HN.
      * destruct d1, d2; try discriminate. reflexivity.
      * rewrite !assign_value_big_host by (trivial; lia). reflexivity.
  - intros Hnat HN Hrep Henc.
    rewrite assign_value_stores by trivial.
    eexists. split; [reflexivity |].
    now rewrite length_lsb_first, length_le_bytes.
Qed.

Lemma assignment_forgets_prior_bytes_witness :
  assign le32 (N_byte_int int32 3 big) (-2) [1; 2; 3]
  = assign le32 (N_byte_int int32 3 big) (-2) [200; 0; 77].
Proof.
  apply (assignment_forgets_prior_bytes le32 (N_byte_int int32 3 big) (-2)
           [1; 2; 3] [200; 0; 77]);
    [unfold valid_params; simpl; lia | reflexivity | reflexivity].
Defined.

(** C10 (observers).  On every buffer that construction and assignment can
    leave, [value()], [operator Int] and [bytes()] return and leave the
    buffer as it was. *)
Theorem observers_leave_buffer (h : host) (p : params) (data_ : list byte) :
  valid_params p ->
  (1 <= Num_bytes p)%nat ->
  reachable h p data_ ->
  exists v,
    value h p data_ = Some (v, data_) /\
    operator_Int h p data_ = Some (v, data_) /\
    bytes p data_ = (data_, data_).
Proof.
  intros Hvalid HN Hreach.
  destruct (native h) eqn:Hnat.
  - destruct (reachable_little_host h Hnat p Hvalid HN data_ Hreach)
      as (v & Hrep & Henc & ->).
    unfold value, operator_Int, bytes.
    rewrite get_value_little_host; trivial.
    + eexists. repeat split.
    + apply stored_well_formed.
    + now apply stored_decodable.
  - now destruct (reachable_big_host h Hnat p HN data_).
Qed.

Lemma observers_leave_buffer_witness :
  exists v,
    value le32 (N_byte_int int32 3 big) [255; 255; 254]
    = Some (v, [255; 255; 254]) /\
    operator_Int le32 (N_byte_int int32 3 big) [255; 255; 254]
    = Some (v, [255; 255; 254]) /\
    bytes (N_byte_int int32 3 big) [255; 255; 254]
    = ([255; 255; 254], [255; 255; 254]).
Proof.
  apply (observers_leave_buffer le32 (N_byte_int int32 3 big) [255; 255; 254]);
    [unfold valid_params; simpl; lia | simpl; lia | ].
  apply (reach_construct le32 (N_byte_int int32 3 big) (-2) [0; 0; 0]);
    reflexivity.
Defined.

(** * Further properties of the code *)

(** ** Helper facts *)

Lemma nth_error_le_bytes (n k : nat) (u : Z) :
  (k < n)%nat ->
  nth_error (le_bytes n u) k = Some ((u / 256 ^ Z.of_nat k) mod 256).
Proof.
  revert n u. induction k as [| k IH]; intros n u Hk.
  - destruct n as [| n]; [lia |]. cbn [le_bytes nth_error].
    change (256 ^ Z.of_nat 0) with 1. now rewrite Z.div_1_r.
  - destruct n as [| n]; [lia |]. cbn [le_bytes nth_error].
    rewrite IH by lia. rewrite pow256_succ.
    rewrite Z.div_div by (try apply pow256_pos; lia). reflexivity.
Qed.

Lemma le_bytes_mod (n : nat) (u : Z) :
  le_bytes n (u mod 256 ^ Z.of_nat n) = le_bytes n u.
Proof.
  pose proof (le_bytes_le_value (le_bytes n u) (le_bytes_is_byte n u)) as H.
  now rewrite length_le_bytes, le_value_le_bytes in H.
Qed.

Lemma le_bytes_congruent (n : nat) (u1 u2 : Z) :
  le_bytes n u1 = le_bytes n u2 <->
  u1 mod 256 ^ Z.of_nat n = u2 mod 256 ^ Z.of_nat n.
Proof.
  split; intros H.
  - apply (f_equal le_value) in H. now rewrite !le_value_le_bytes in H.
  - rewrite <- (le_bytes_mod n u1), <- (le_bytes_mod n u2). now rewrite H.
Qed.

Lemma lsb_first_injective (p : params) (l1 l2 : list byte) :
  lsb_first p l1 = lsb_first p l2 -> l1 = l2.
Proof.
  intros H. apply (f_equal (lsb_first p)) in H.
  now rewrite !lsb_first_involutive in H.
Qed.

(** The value decoded from 8 * Num_bytes bits fits in Num_bytes bytes and has
    those bits as its low bits. *)
Lemma decode_stored_spec (p : params) (x : Z) :
  (1 <= Num_bytes p)%nat ->
  0 <= x < 2 ^ stored_bits p ->
  fits p (decode_stored p x) /\ decode_stored p x mod 2 ^ stored_bits p = x.
Proof.
  intros HN Hx. unfold fits, decode_stored, twos_complement_value.
  assert (H8 : 8 <= stored_bits p) by (unfold stored_bits, CHAR_BIT; lia).
  pose proof (pow2_half (stored_bits p) ltac:(lia)) as Hpow.
  pose proof (pow2_half_pos (stored_bits p) ltac:(lia)) as HP.
  rewrite Hpow in *.
  destruct (is_signed (Int p)).
  - destruct (Z.ltb_spec x (2 ^ (stored_bits p - 1))) as [Hlt | Hge].
    + split; [lia |]. rewrite (mod_window _ _ 0) by lia. lia.
    + split; [lia |]. rewrite (mod_window _ _ (-1)) by lia. lia.
  - split; [lia |]. apply Z.mod_small. lia.
Qed.

(** ** The codec *)

(** X1 (decode after encode).  For every value of a signed type, except the
    least value of a type that is computed with in itself, the encoder
    returns a pattern of the type's width and the decoder returns the value
    from that pattern. *)
Theorem decode_after_encode (h : host) (t : int_type) (s : Z) :
  is_signed t = true ->
  (1 <= size_of t)%nat ->
  representable t s = true ->
  (size_of t < sizeof_int h)%nat \/ s <> int_min t ->
  exists u,
    to_twos_complement h t s = Some u /\
    0 <= u < 2 ^ bits t /\
    from_twos_complement h (make_unsigned_t t) u = Some s.
Proof.
  intros Hs Hsz Hrep Hok.
  exists (native_pattern t s).
  assert (Henc : encodable h t s).
  { intros _ Hwide. destruct Hok as [Hnarrow | Hne]; [lia | exact Hne]. }
  split; [| split].
  - now apply to_twos_complement_value.
  - apply native_pattern_bounds.
  - rewrite from_twos_complement_value; trivial.
    + rewrite bits_make_unsigned. f_equal.
      now apply twos_complement_value_pattern.
    + exact (native_pattern_bounds t s).
    + rewrite bits_make_unsigned.
      destruct Hok as [Hnarrow | Hne]; [now left | right].
      intros Htop. apply Hne. now apply native_pattern_top.
Qed.

Lemma decode_after_encode_witness :
  exists u,
    to_twos_complement le32 int32 (-5) = Some u /\
    0 <= u < 2 ^ bits int32 /\
    from_twos_complement le32 (make_unsigned_t int32) u = Some (-5).
Proof.
  apply (decode_after_encode le32 int32 (-5));
    [reflexivity | simpl; lia | reflexivity | right; discriminate].
Defined.

(** X2 (encode after decode).  For every pattern of an unsigned type, except
    the pattern with only the top bit set of a type that is computed with in
    itself, the decoder returns a value of the signed type and the encoder
    returns the pattern from that value. *)
Theorem encode_after_decode (h : host) (t : int_type) (u : Z) :
  is_signed t = false ->
  (1 <= size_of t)%nat ->
  0 <= u < 2 ^ bits t ->
  (size_of t < sizeof_int h)%nat \/ u <> 2 ^ (bits t - 1) ->
  exists s,
    from_twos_complement h t u = Some s /\
    representable (make_signed_t t) s = true /\
    to_twos_complement h (make_signed_t t) s = Some u.
Proof.
  intros Hs Hsz Hu Hok.
  width_facts t Hsz.
  pose proof (encode_decode h t u Hs Hsz Hu Hok) as Hround.
  rewrite from_twos_complement_value in Hround |- * by trivial.
  cbn [bind] in Hround.
  eexists. split; [reflexivity |]. split; [| exact Hround].
  apply representable_signed; [reflexivity |].
  rewrite bits_make_signed. unfold twos_complement_value.
  destruct (Z.ltb_spec u (2 ^ (bits t - 1))); lia.
Qed.

Lemma encode_after_decode_witness :
  exists s,
    from_twos_complement le32 uint32 4294967291 = Some s /\
    representable (make_signed_t uint32) s = true /\
    to_twos_complement le32 (make_signed_t uint32) s = Some 4294967291.
Proof.
  apply (encode_after_decode le32 uint32 4294967291);
    [reflexivity | simpl; lia | simpl; lia | right; discriminate].
Defined.

(** X3 (where the decoder is undefined).  On the patterns of an unsigned
    type the decoder is undefined at exactly one: the pattern with only the
    top bit set, when the type is computed with in itself. *)
Theorem from_twos_complement_undefined_iff (h : host) (t : int_type) (u : Z) :
  is_signed t = false ->
  (1 <= size_of t)%nat ->
  0 <= u < 2 ^ bits t ->
  from_twos_complement h t u = None <->
  ((sizeof_int h <= size_of t)%nat /\ u = 2 ^ (bits t - 1)).
Proof.
  intros Hs Hsz Hu. split.
  - intros Hnone.
    destruct (Nat.lt_ge_cases (size_of t) (sizeof_int h)) as [Hnarrow | Hwide].
    + rewrite from_twos_complement_value in Hnone by auto. discriminate.
    + split; trivial.
      destruct (Z.eq_dec u (2 ^ (bits t - 1))) as [Heq | Hne]; trivial.
      rewrite from_twos_complement_value in Hnone by auto. discriminate.
  - intros [Hwide ->]. now apply from_twos_complement_top.
Qed.

Lemma from_twos_complement_undefined_iff_witness :
  from_twos_complement le32 uint32 2147483648 = None.
Proof.
  apply (from_twos_complement_undefined_iff le32 uint32 2147483648);
    [ reflexivity | simpl; lia | simpl; lia
    | split; [simpl; lia | reflexivity] ].
Defined.

(** X4 (the encoder is the modular conversion).  Where it is defined, the
    hand-written encoder returns what the conversion to the unsigned type
    returns: the value modulo 2^bits. *)
Theorem to_twos_complement_is_static_cast (h : host) (t : int_type) (v : Z) :
  is_signed t = true ->
  (1 <= size_of t)%nat ->
  representable t v = true ->
  (size_of t < sizeof_int h)%nat \/ v <> int_min t ->
  to_twos_complement h t v = Some (static_cast (make_unsigned_t t) v).
Proof.
  intros Hs Hsz Hrep Hok. rewrite static_cast_unsigned.
  now apply to_twos_complement_value.
Qed.

Lemma to_twos_complement_is_static_cast_witness :
  to_twos_complement le32 int16 (-32768)
  = Some (static_cast (make_unsigned_t int16) (-32768)).
Proof.
  apply (to_twos_complement_is_static_cast le32 int16 (-32768));
    [reflexivity | simpl; lia | reflexivity | left; simpl; lia].
Defined.

(** X5 (the decoder is the modular conversion, and the top bit is the
    sign).  Where it is defined, the hand-written decoder returns what the
    conversion to the signed type returns, and the result is negative
    exactly when the bit tested against the mask is set. *)
Theorem from_twos_complement_is_static_cast (h : host) (t : int_type)
    (u : Z) :
  is_signed t = false ->
  (1 <= size_of t)%nat ->
  0 <= u < 2 ^ bits t ->
  (size_of t < sizeof_int h)%nat \/ u <> 2 ^ (bits t - 1) ->
  from_twos_complement h t u = Some (static_cast (make_signed_t t) u) /\
  (static_cast (make_signed_t t) u < 0 <-> Z.testbit u (bits t - 1) = true).
Proof.
  intros Hs Hsz Hu Hok.
  width_facts t Hsz.
  assert (Hcast : static_cast (make_signed_t t) u
                  = twos_complement_value (bits t) u).
  { rewrite static_cast_signed, Hpow. unfold twos_complement_value.
    destruct (Z.ltb_spec u (2 ^ (bits t - 1))) as [Hlt | Hge].
    - rewrite (mod_window _ _ 0) by lia. lia.
    - rewrite (mod_window _ _ 1) by lia. lia. }
  split.
  - rewrite Hcast. now apply from_twos_complement_value.
  - rewrite Hcast, testbit_top by lia. unfold twos_complement_value.
    destruct (Z.ltb_spec u (2 ^ (bits t - 1))); cbn [negb]; split;
      intros; try lia; try discriminate; trivial.
Qed.

Lemma from_twos_complement_is_static_cast_witness :
  from_twos_complement le32 uint32 4294967295
  = Some (static_cast (make_signed_t uint32) 4294967295) /\
  (static_cast (make_signed_t uint32) 4294967295 < 0
   <-> Z.testbit 4294967295 (bits uint32 - 1) = true).
Proof.
  apply (from_twos_complement_is_static_cast le32 uint32 4294967295);
    [reflexivity | simpl; lia | simpl; lia | right; discriminate].
Defined.

(** ** The byte iterators *)

(** X6 (the walk over a scalar on a little-endian host).  The position k
    steps after [little_endian_byte_iterator] designates the byte of weight
    256^k of the scalar, for every k below its size, and the end iterator
    designates no byte of it. *)
Theorem little_endian_walk (h : host) (t : int_type) (u : Z) (m : memory)
    (o : object) (k : nat) :
  native h = little ->
  contents m o = object_bytes h t u ->
  (k < size_of t)%nat ->
  deref m (next (little_endian_byte_iterator h o) (Z.of_nat k))
  = Some ((u / 256 ^ Z.of_nat k) mod 256) /\
  deref m (little_endian_byte_end_iterator h t o) = None.
Proof.
  intros Hnat Hc Hk.
  unfold little_endian_byte_end_iterator, little_endian_byte_iterator,
    object_bytes in *.
  rewrite Hnat in *. unfold deref, load. cbn [next iter_object iter_offset].
  rewrite Hc. split.
  - destruct (Z.leb_spec 0 (0 + Z.of_nat k)); [| lia].
    replace (Z.to_nat (0 + Z.of_nat k)) with k by lia.
    now apply nth_error_le_bytes.
  - destruct (Z.leb_spec 0 (0 + Z.of_nat (size_of t))); [| lia].
    apply nth_error_None. rewrite length_le_bytes. lia.
Qed.

Lemma little_endian_walk_witness :
  deref {| mem_data := []; mem_uvalue := object_bytes le32 uint32 4660 |}
    (next (little_endian_byte_iterator le32 obj_uvalue) (Z.of_nat 1))
  = Some ((4660 / 256 ^ Z.of_nat 1) mod 256) /\
  deref {| mem_data := []; mem_uvalue := object_bytes le32 uint32 4660 |}
    (little_endian_byte_end_iterator le32 uint32 obj_uvalue) = None.
Proof.
  apply (little_endian_walk le32 uint32 4660
           {| mem_data := []; mem_uvalue := object_bytes le32 uint32 4660 |}
           obj_uvalue 1);
    [reflexivity | reflexivity | simpl; lia].
Defined.

(** X7 (the walk over a scalar on a big-endian host).  Every position from
    [little_endian_byte_iterator] on, the end iterator included, designates
    a byte before the scalar: nothing can be read or written through it. *)
Theorem big_endian_walk (h : host) (t : int_type) (m : memory) (o : object)
    (k : nat) (b : byte) :
  native h = big ->
  deref m (next (little_endian_byte_iterator h o) (Z.of_nat k)) = None /\
  assign_through m (next (little_endian_byte_iterator h o) (Z.of_nat k)) b
  = None /\
  deref m (little_endian_byte_end_iterator h t o) = None.
Proof.
  intros Hnat.
  unfold little_endian_byte_end_iterator, little_endian_byte_iterator.
  rewrite Hnat. unfold deref, assign_through.
  cbn [next iter_object iter_offset].
  repeat split.
  - apply load_before. lia.
  - apply store_before. lia.
  - apply load_before. lia.
Qed.

Lemma big_endian_walk_witness :
  deref {| mem_data := []; mem_uvalue := object_bytes be32 uint32 4660 |}
    (next (little_endian_byte_iterator be32 obj_uvalue) (Z.of_nat 0)) = None /\
  assign_through
    {| mem_data := []; mem_uvalue := object_bytes be32 uint32 4660 |}
    (next (little_endian_byte_iterator be32 obj_uvalue) (Z.of_nat 0)) 7
  = None /\
  deref {| mem_data := []; mem_uvalue := object_bytes be32 uint32 4660 |}
    (little_endian_byte_end_iterator be32 uint32 obj_uvalue) = None.
Proof.
  apply (big_endian_walk be32 uint32
           {| mem_data := []; mem_uvalue := object_bytes be32 uint32 4660 |}
           obj_uvalue 0 7).
  reflexivity.
Defined.

(** X8 (the walk over the stored bytes).  Whatever the byte order of the
    type, the position k steps after [data_begin_little_endian] designates
    the k-th stored byte counted from the least significant one, and
    Num_bytes steps lead to [data_end_little_endian]. *)
Theorem stored_byte_walk (p : params) (m : memory) (k : nat) :
  length (mem_data m) = Num_bytes p ->
  (k < Num_bytes p)%nat ->
  deref m (next (data_begin_little_endian p) (Z.of_nat k))
  = nth_error (lsb_first p (mem_data m)) k /\
  next (data_begin_little_endian p) (Z.of_nat (Num_bytes p))
  = data_end_little_endian p.
Proof.
  intros Hlen Hk.
  unfold data_begin_little_endian, data_end_little_endian, lsb_first, deref,
    load.
  destruct (Byte_order p); cbn [next iter_object iter_offset contents].
  - split; [| reflexivity].
    destruct (Z.leb_spec 0 (0 + Z.of_nat k)); [| lia].
    now replace (Z.to_nat (0 + Z.of_nat k)) with k by lia.
  - split; [| f_equal; lia].
    destruct (Z.leb_spec 0 (Z.of_nat (Num_bytes p) - Z.of_nat k - 1)); [| lia].
    rewrite nth_error_rev, Hlen.
    destruct (Nat.ltb_spec k (Num_bytes p)); [| lia].
    f_equal. lia.
Qed.

Lemma stored_byte_walk_witness :
  deref {| mem_data := [10; 20; 30]; mem_uvalue := [] |}
    (next (data_begin_little_endian (N_byte_int int32 3 big)) (Z.of_nat 0))
  = nth_error (lsb_first (N_byte_int int32 3 big) [10; 20; 30]) 0 /\
  next (data_begin_little_endian (N_byte_int int32 3 big)) (Z.of_nat 3)
  = data_end_little_endian (N_byte_int int32 3 big).
Proof.
  apply (stored_byte_walk (N_byte_int int32 3 big)
           {| mem_data := [10; 20; 30]; mem_uvalue := [] |} 0);
    [reflexivity | simpl; lia].
Defined.

(** X9 ([data_msb]).  On a buffer of Num_bytes bytes [data_msb] is the most
    significant stored byte: the last byte of a little-endian type, the
    first byte of a big-endian one.  When Num_bytes is zero, which the class
    template accepts, it designates no byte. *)
Theorem data_msb_cases (p : params) (m : memory) :
  length (mem_data m) = Num_bytes p ->
  data_msb p m
  = match Num_bytes p with
    | O => None
    | S _ => Some (match Byte_order p with
                   | little => last (mem_data m) 0
                   | big => hd 0 (mem_data m)
                   end)
    end.
Proof.
  intros Hlen. destruct m as [d uv]. cbn [mem_data] in *.
  destruct (Num_bytes p) as [| n] eqn:HN.
  - destruct d; [| discriminate].
    unfold data_msb, data_end_little_endian, prev, deref. rewrite HN.
    destruct (Byte_order p); reflexivity.
  - rewrite data_msb_value by (rewrite ?HN; trivial; lia).
    unfold msb_of, lsb_first. destruct (Byte_order p); trivial.
    destruct d as [| x r]; [discriminate |].
    cbn [rev hd]. now rewrite last_last.
Qed.

Lemma data_msb_cases_witness :
  data_msb (N_byte_int int32 3 big)
    {| mem_data := [10; 20; 30]; mem_uvalue := [] |}
  = Some 10.
Proof.
  apply (data_msb_cases (N_byte_int int32 3 big)
           {| mem_data := [10; 20; 30]; mem_uvalue := [] |}).
  reflexivity.
Defined.

(** ** Construction, assignment and read-back *)

(** X10 (a type of zero bytes).  The class template accepts Num_bytes = 0.
    On such a type read-back is undefined when Int is signed ([data_msb]
    steps before the empty array) and yields 0 when Int is unsigned, on
    every host. *)
Theorem read_back_of_zero_bytes (h : host) (t : int_type) (o : endian) :
  (1 <= size_of t)%nat ->
  value h (N_byte_int t 0 o) []
  = if is_signed t then None else Some (0, []).
Proof.
  intros Hsz. unfold value, get_value, fill_carrier. cbv zeta.
  cbn [Int Num_bytes N_byte_int].
  destruct (is_signed t) eqn:Hs; cbn [andb].
  - destruct (Nat.ltb_spec 0 (size_of t)); [| lia].
    unfold data_msb, data_end_little_endian, prev, deref.
    cbn [Byte_order Num_bytes N_byte_int].
    destruct o; reflexivity.
  - cbn [bind copy_n mem_uvalue mem_data].
    assert (Hzero : object_value h (object_bytes h (make_unsigned_t t) 0) = 0).
    { unfold object_value, object_bytes.
      destruct (native h); rewrite ?rev_involutive, le_bytes_zero;
        apply le_value_repeat_zero. }
    rewrite Hzero. unfold static_cast. rewrite Hs.
    rewrite Z.mod_0_l; [reflexivity |].
    apply Z.pow_nonzero; unfold bits, CHAR_BIT; lia.
Qed.

Lemma read_back_of_zero_bytes_witness :
  value le32 (N_byte_int int32 0 little) [] = None.
Proof.
  apply (read_back_of_zero_bytes le32 int32 little). simpl. lia.
Defined.

(** X11 (byte layout on a little-endian host).  Construction from a value
    whose encoding is defined leaves Num_bytes bytes; the byte of weight
    256^k of the value's native pattern is at index k of a little-endian
    type and at index Num_bytes - 1 - k of a big-endian one. *)
Theorem bytes_layout_little_host (h : host) (p : params) (v : Z)
    (indeterminate : list byte) :
  native h = little ->
  valid_params p ->
  (1 <= Num_bytes p)%nat ->
  length indeterminate = Num_bytes p ->
  representable (Int p) v = true ->
  encodable h (Int p) v ->
  exists bs,
    constructed_bytes h p v indeterminate = Some bs /\
    length bs = Num_bytes p /\
    forall k, (k < Num_bytes p)%nat ->
      nth_error bs (match Byte_order p with
                    | little => k
                    | big => Num_bytes p - 1 - k
                    end)
      = Some ((native_pattern (Int p) v / 256 ^ Z.of_nat k) mod 256).
Proof.
  intros Hnat Hvalid HN Hlen Hrep Henc.
  unfold constructed_bytes, construct, bytes.
  rewrite assign_value_stores by trivial. cbn [bind fst].
  eexists. split; [reflexivity |]. split.
  - now rewrite length_lsb_first, length_le_bytes.
  - intros k Hk. unfold lsb_first. destruct (Byte_order p).
    + now apply nth_error_le_bytes.
    + rewrite nth_error_rev, length_le_bytes.
      destruct (Nat.ltb_spec (Num_bytes p - 1 - k) (Num_bytes p)); [| lia].
      replace (Num_bytes p - S (Num_bytes p - 1 - k))%nat with k by lia.
      now apply nth_error_le_bytes.
Qed.

Lemma bytes_layout_little_host_witness :
  exists bs,
    constructed_bytes le32 (N_byte_int uint32 3 big) 74565 [0; 0; 0]
    = Some bs /\
    length bs = 3%nat /\
    forall k, (k < 3)%nat ->
      nth_error bs (3 - 1 - k)
      = Some ((native_pattern uint32 74565 / 256 ^ Z.of_nat k) mod 256).
Proof.
  apply (bytes_layout_little_host le32 (N_byte_int uint32 3 big) 74565
           [0; 0; 0]);
    [ reflexivity | unfold valid_params; simpl; lia | simpl; lia
    | reflexivity | reflexivity | intros Hs; discriminate ].
Defined.

(** X12 (round trip of the values that fit).  On a little-endian host a
    value that fits in Num_bytes bytes and whose encoding is defined is read
    back unchanged after construction, whatever the buffer held. *)
Theorem round_trip_of_fitting_values (h : host) (p : params) (v : Z)
    (indeterminate : list byte) :
  native h = little ->
  valid_params p ->
  (1 <= Num_bytes p)%nat ->
  length indeterminate = Num_bytes p ->
  fits p v ->
  encodable h (Int p) v ->
  read_back h p v indeterminate = Some v.
Proof.
  intros Hnat Hvalid HN Hlen Hfits Henc.
  now apply read_back_in_range.
Qed.

Lemma round_trip_of_fitting_values_witness :
  read_back le32 (N_byte_int int32 3 big) (-8388608) [1; 2; 3]
  = Some (-8388608).
Proof.
  apply (round_trip_of_fitting_values le32 (N_byte_int int32 3 big)
           (-8388608) [1; 2; 3]);
    [ reflexivity | unfold valid_params; simpl; lia | simpl; lia
    | reflexivity | unfold fits; simpl; lia | intros _ _; discriminate ].
Defined.

(** X13 (truncation).  On a little-endian host the value read back after
    construction from any value of Int whose encoding is defined is the one
    value that fits in Num_bytes bytes and is congruent to the given value
    modulo 2^(8 * Num_bytes). *)
Theorem read_back_is_congruent_and_fits (h : host) (p : params) (v : Z)
    (indeterminate : list byte) :
  native h = little ->
  valid_params p ->
  (1 <= Num_bytes p)%nat ->
  length indeterminate = Num_bytes p ->
  representable (Int p) v = true ->
  encodable h (Int p) v ->
  exists r,
    read_back h p v indeterminate = Some r /\
    fits p r /\
    r mod 2 ^ stored_bits p = v mod 2 ^ stored_bits p /\
    forall r', fits p r' ->
      r' mod 2 ^ stored_bits p = v mod 2 ^ stored_bits p -> r' = r.
Proof.
  intros Hnat Hvalid HN Hlen Hrep Henc.
  assert (Hpos : 0 < 2 ^ stored_bits p)
    by (apply Z.pow_pos_nonneg; unfold stored_bits, CHAR_BIT; lia).
  pose proof (Z.mod_pos_bound v (2 ^ stored_bits p) Hpos) as Hx.
  destruct (decode_stored_spec p _ HN Hx) as [Hfits Hmod].
  exists (decode_stored p (v mod 2 ^ stored_bits p)).
  split; [now apply read_back_truncates |].
  split; [exact Hfits |]. split; [exact Hmod |].
  intros r' Hfits' Hmod'.
  rewrite <- Hmod'. symmetry. now apply decode_stored_fits.
Qed.

Lemma read_back_is_congruent_and_fits_witness :
  exists r,
    read_back le32 (N_byte_int uint32 2 little) 70000 [0; 0] = Some r /\
    fits (N_byte_int uint32 2 little) r /\
    r mod 2 ^ stored_bits (N_byte_int uint32 2 little)
    = 70000 mod 2 ^ stored_bits (N_byte_int uint32 2 little) /\
    forall r', fits (N_byte_int uint32 2 little) r' ->
      r' mod 2 ^ stored_bits (N_byte_int uint32 2 little)
      = 70000 mod 2 ^ stored_bits (N_byte_int uint32 2 little) -> r' = r.
Proof.
  apply (read_back_is_congruent_and_fits le32 (N_byte_int uint32 2 little)
           70000 [0; 0]);
    [ reflexivity | unfold valid_params; simpl; lia | simpl; lia
    | reflexivity | reflexivity | intros Hs; discriminate ].
Defined.

(** X14 (read-back of any buffer).  On a little-endian host read-back of a
    buffer of Num_bytes bytes that stays clear of the decoder's overflow
    returns the two's-complement (signed Int) or binary (unsigned Int) value
    of the stored bytes, a value that fits in Num_bytes bytes, and leaves
    the buffer as it was. *)
Theorem read_back_decodes_stored_bytes (h : host) (p : params)
    (data_ : list byte) :
  native h = little ->
  valid_params p ->
  (1 <= Num_bytes p)%nat ->
  well_formed p data_ ->
  decodable h p data_ ->
  exists v,
    value h p data_ = Some (v, data_) /\
    v = decode_stored p (le_value (lsb_first p data_)) /\
    fits p v.
Proof.
  intros Hnat Hvalid HN Hwf Hdec.
  eexists. split; [| split; [reflexivity |]].
  - now apply get_value_little_host.
  - destruct Hwf as [Hlen Hbytes].
    pose proof (le_value_bounds _ (Forall_lsb_first p _ Hbytes)) as Hx.
    rewrite length_lsb_first, Hlen, <- stored_pow in Hx.
    exact (proj1 (decode_stored_spec p _ HN Hx)).
Qed.

Lemma read_back_decodes_stored_bytes_witness :
  exists v,
    value le32 (N_byte_int uint32 4 big) [128; 0; 0; 1]
    = Some (v, [128; 0; 0; 1]) /\
    v = decode_stored (N_byte_int uint32 4 big)
          (le_value (lsb_first (N_byte_int uint32 4 big) [128; 0; 0; 1])) /\
    fits (N_byte_int uint32 4 big) v.
Proof.
  apply (read_back_decodes_stored_bytes le32 (N_byte_int uint32 4 big)
           [128; 0; 0; 1]);
    [ reflexivity | unfold valid_params; simpl; lia | simpl; lia
    | split; [reflexivity | repeat constructor; unfold is_byte; lia]
    | intros Hs; discriminate ].
Defined.

(** X15 (bytes to value to bytes).  On a little-endian host, assigning the
    value read from a buffer that stays clear of the decoder's overflow
    stores the bytes of that buffer again, whatever the target held. *)
Theorem assign_after_value (h : host) (p : params) (data_ target : list byte) :
  native h = little ->
  valid_params p ->
  (1 <= Num_bytes p)%nat ->
  well_formed p data_ ->
  decodable h p data_ ->
  length target = Num_bytes p ->
  exists v,
    value h p data_ = Some (v, data_) /\
    assign h p v target = Some data_.
Proof.
  intros Hnat Hvalid HN Hwf Hdec Hlen.
  exists (decode_stored p (le_value (lsb_first p data_))).
  split; [now apply get_value_little_host |].
  destruct Hwf as [Hlen' Hbytes].
  pose proof (Forall_lsb_first p _ Hbytes) as Hl.
  pose proof (le_value_bounds _ Hl) as Hx.
  rewrite length_lsb_first, Hlen', <- stored_pow in Hx.
  destruct (decode_stored_spec p _ HN Hx) as [Hfits Hmod].
  set (x := le_value (lsb_first p data_)) in *.
  assert (Hrep : representable (Int p) (decode_stored p x) = true)
    by now apply fits_representable.
  assert (Henc : encodable h (Int p) (decode_stored p x)).
  { intros Hs Hwide Hmin.
    pose proof Hvalid as Hle. unfold valid_params in Hle.
    assert (Hsz : (1 <= size_of (Int p))%nat) by lia.
    width_facts (Int p) Hsz.
    unfold fits in Hfits. rewrite Hs in Hfits.
    unfold int_min in Hmin. rewrite Hs in Hmin.
    destruct (Nat.eq_dec (Num_bytes p) (size_of (Int p))) as [HNeq | HNne].
    - apply (Hdec Hs HNeq Hwide). fold x.
      assert (Hbits : stored_bits p = bits (Int p))
        by (unfold stored_bits, bits; now rewrite HNeq).
      rewrite Hbits in *. rewrite Hmin, Hpow in Hmod.
      rewrite (mod_window _ _ (-1)) in Hmod by lia. lia.
    - assert (2 ^ (stored_bits p - 1) < 2 ^ (bits (Int p) - 1))
        by (apply Z.pow_lt_mono_r; unfold stored_bits, bits, CHAR_BIT; lia).
      lia. }
  unfold assign. rewrite assign_value_stores by trivial.
  f_equal. apply (lsb_first_injective p). rewrite lsb_first_involutive.
  rewrite <- le_bytes_mod, <- stored_pow, low_bits_of_pattern by trivial.
  rewrite Hmod. subst x.
  rewrite <- (le_bytes_le_value _ Hl) at 2.
  now rewrite length_lsb_first, Hlen'.
Qed.

Lemma assign_after_value_witness :
  exists v,
    value le32 (N_byte_int int32 3 big) [255; 0; 7]
    = Some (v, [255; 0; 7]) /\
    assign le32 (N_byte_int int32 3 big) v [1; 1; 1] = Some [255; 0; 7].
Proof.
  apply (assign_after_value le32 (N_byte_int int32 3 big) [255; 0; 7]
           [1; 1; 1]);
    [ reflexivity | unfold valid_params; simpl; lia | simpl; lia
    | split; [reflexivity | repeat constructor; unfold is_byte; lia]
    | intros _ HNeq; discriminate | reflexivity ].
Defined.

(** X16 (which values share their bytes).  On a little-endian host two
    values whose encodings are defined are stored as the same bytes exactly
    when they are congruent modulo 2^(8 * Num_bytes). *)
Theorem same_bytes_iff_congruent (h : host) (p : params) (v1 v2 : Z)
    (d1 d2 : list byte) :
  native h = little ->
  valid_params p ->
  (1 <= Num_bytes p)%nat ->
  length d1 = Num_bytes p ->
  length d2 = Num_bytes p ->
  representable (Int p) v1 = true -> encodable h (Int p) v1 ->
  representable (Int p) v2 = true -> encodable h (Int p) v2 ->
  construct h p v1 d1 = construct h p v2 d2 <->
  v1 mod 2 ^ stored_bits p = v2 mod 2 ^ stored_bits p.
Proof.
  intros Hnat Hvalid HN Hl1 Hl2 Hrep1 Henc1 Hrep2 Henc2.
  unfold construct. rewrite !assign_value_stores by trivial.
  rewrite <- (low_bits_of_pattern p v1), <- (low_bits_of_pattern p v2)
    by trivial.
  rewrite stored_pow.
  rewrite <- le_bytes_congruent. split.
  - intros Heq. inversion Heq as [Hl].
    now apply (lsb_first_injective p) in Hl.
  - intros Heq. now rewrite Heq.
Qed.

Lemma same_bytes_iff_congruent_witness :
  construct le32 (N_byte_int uint32 2 little) 70000 [0; 0]
  = construct le32 (N_byte_int uint32 2 little) 4464 [9; 9]
  <-> 70000 mod 2 ^ stored_bits (N_byte_int uint32 2 little)
      = 4464 mod 2 ^ stored_bits (N_byte_int uint32 2 little).
Proof.
  apply (same_bytes_iff_congruent le32 (N_byte_int uint32 2 little)
           70000 4464 [0; 0] [9; 9]);
    [ reflexivity | unfold valid_params; simpl; lia | simpl; lia
    | reflexivity | reflexivity | reflexivity | intros Hs; discriminate
    | reflexivity | intros Hs; discriminate ].
Defined.

(** X17 (the last assignment wins).  Once an assignment has succeeded, a
    second assignment leaves what it would have left on the original
    buffer: nothing of the first value remains.  This holds on every
    host. *)
Theorem last_assignment_wins (h : host) (p : params) (v1 v2 : Z)
    (d d1 : list byte) :
  valid_params p ->
  length d = Num_bytes p ->
  assign h p v1 d = Some d1 ->
  length d1 = Num_bytes p /\
  assign h p v2 d1 = assign h p v2 d.
Proof.
  intros Hvalid Hlen Hfirst. unfold assign in *.
  destruct (native h) eqn:Hnat.
  - destruct (assign_value_well_formed h Hnat p Hvalid v1 d d1 Hlen Hfirst)
      as [Hlen1 _].
    split; trivial.
    now rewrite !assign_value_little_host by trivial.
  - destruct (Num_bytes p) as [| n] eqn:HN.
    + unfold assign_value in Hfirst. cbv zeta in Hfirst. rewrite HN in Hfirst.
      destruct (if is_signed (Int p) then _ else _) as [u |];
        cbn [bind copy_n mem_data] in Hfirst; [| discriminate].
      inversion Hfirst; subst d1. split; trivial.
    + rewrite assign_value_big_host in Hfirst by (trivial; lia).
      discriminate.
Qed.

Lemma last_assignment_wins_witness :
  length [254; 255; 255] = Num_bytes (N_byte_int int32 3 little) /\
  assign le32 (N_byte_int int32 3 little) 5 [254; 255; 255]
  = assign le32 (N_byte_int int32 3 little) 5 [9; 9; 9].
Proof.
  apply (last_assignment_wins le32 (N_byte_int int32 3 little) (-2) 5
           [9; 9; 9] [254; 255; 255]);
    [unfold valid_params; simpl; lia | reflexivity | reflexivity].
Defined.

(** X18 (the buffer keeps its size).  Every buffer that construction and
    assignment can leave holds exactly Num_bytes bytes, each below 256, on
    every host. *)
Theorem reachable_well_formed (h : host) (p : params) (data_ : list byte) :
  valid_params p ->
  reachable h p data_ ->
  well_formed p data_.
Proof.
  intros Hvalid Hreach.
  assert (Hstep : forall v before d,
             length before = Num_bytes p ->
             assign_value h p v before = Some d -> well_formed p d).
  { intros v before d Hlen Hassign.
    destruct (native h) eqn:Hnat.
    - now apply (assign_value_well_formed h Hnat p Hvalid v before d).
    - destruct (Num_bytes p) as [| n] eqn:HN.
      + unfold assign_value in Hassign. cbv zeta in Hassign.
        rewrite HN in Hassign.
        destruct (if is_signed (Int p) then _ else _) as [u |];
          cbn [bind copy_n mem_data] in Hassign; [| discriminate].
        inversion Hassign; subst d.
        destruct before; [| discriminate].
        split; [now rewrite HN | constructor].
      + rewrite assign_value_big_host in Hassign by (trivial; lia).
        discriminate. }
  induction Hreach as [v ind d Hrep Hlen Hc | v before d Hrep Hbefore IH Ha].
  - now apply (Hstep v ind d).
  - apply (Hstep v before d); trivial. now destruct IH.
Qed.

Lemma reachable_well_formed_witness :
  well_formed (N_byte_int int32 3 big) [255; 255; 254].
Proof.
  apply (reachable_well_formed le32 (N_byte_int int32 3 big) [255; 255; 254]);
    [unfold valid_params; simpl; lia |].
  apply (reach_construct le32 (N_byte_int int32 3 big) (-2) [0; 0; 0]);
    reflexivity.
Defined.

(** X19 (the byte order does not show in the value).  Construction followed
    by read-back gives the same outcome for the big-endian and the
    little-endian type of the same Int and Num_bytes, for every value of
    Int, on every host. *)
Theorem read_back_ignores_byte_order (h : host) (t : int_type) (n : nat)
    (v : Z) (d1 d2 : list byte) :
  (1 <= n <= size_of t)%nat ->
  length d1 = n ->
  length d2 = n ->
  representable t v = true ->
  read_back h (N_byte_int t n big) v d1
  = read_back h (N_byte_int t n little) v d2.
Proof.
  intros Hn Hl1 Hl2 Hrep.
  destruct (native h) eqn:Hnat.
  - assert (Hcases : encodable h t v \/
                     (is_signed t = true /\ (sizeof_int h <= size_of t)%nat
                      /\ v = int_min t)).
    { unfold encodable. destruct (is_signed t); [| left; discriminate].
      destruct (Nat.lt_ge_cases (size_of t) (sizeof_int h));
        [left; intros; lia |].
      destruct (Z.eq_dec v (int_min t)); [right | left]; auto. }
    destruct Hcases as [Henc | (Hs & Hwide & ->)].
    + rewrite !read_back_little_host;
        cbn [Int Num_bytes N_byte_int]; trivial;
        unfold valid_params; cbn [Int Num_bytes N_byte_int]; lia.
    + unfold read_back.
      rewrite (construct_int_min h (N_byte_int t n big)) by (trivial; simpl; lia).
      rewrite (construct_int_min h (N_byte_int t n little))
        by (trivial; simpl; lia).
      reflexivity.
  - unfold read_back, construct.
    rewrite !assign_value_big_host by (trivial; simpl; lia). reflexivity.
Qed.

Lemma read_back_ignores_byte_order_witness :
  read_back le32 (N_byte_int int32 3 big) (-70000) [1; 2; 3]
  = read_back le32 (N_byte_int int32 3 little) (-70000) [4; 5; 6].
Proof.
  apply (read_back_ignores_byte_order le32 int32 3 (-70000)
           [1; 2; 3] [4; 5; 6]);
    [simpl; lia | reflexivity | reflexivity | reflexivity].
Defined.

(** X20 (reading reversed bytes).  On a little-endian host the big-endian
    type reads from a buffer the value that the little-endian type reads
    from the reversed buffer. *)
Theorem value_of_reversed_bytes (h : host) (t : int_type) (n : nat)
    (data_ : list byte) :
  native h = little ->
  (1 <= n <= size_of t)%nat ->
  well_formed (N_byte_int t n big) data_ ->
  option_map fst (value h (N_byte_int t n big) data_)
  = option_map fst (value h (N_byte_int t n little) (rev data_)).
Proof.
  intros Hnat Hn Hwf.
  assert (Hwf' : well_formed (N_byte_int t n little) (rev data_)).
  { destruct Hwf as [Hlen Hbytes]. split.
    - now rewrite length_rev.
    - now apply Forall_rev. }
  unfold value, get_value. cbv zeta.
  rewrite !fill_carrier_little_host;
    trivial; try (unfold valid_params; cbn [Int Num_bytes N_byte_int]; lia).
  cbn [bind mem_uvalue mem_data Int Num_bytes N_byte_int].
  unfold extension_byte, msb_of, lsb_first.
  cbn [Byte_order Int Num_bytes N_byte_int].
  destruct (if is_signed t then _ else _) as [r |]; reflexivity.
Qed.

Lemma value_of_reversed_bytes_witness :
  option_map fst (value le32 (N_byte_int int32 3 big) [255; 0; 7])
  = option_map fst (value le32 (N_byte_int int32 3 little) (rev [255; 0; 7])).
Proof.
  apply (value_of_reversed_bytes le32 int32 3 [255; 0; 7]);
    [ reflexivity | simpl; lia
    | split; [reflexivity | repeat constructor; unfold is_byte; lia] ].
Defined.
